(** * zerrors: typed domain errors

    A shallow embedding of package [zerrors] (the generic [Error[T]] node,
    its builder and query methods, the chain helpers [As] and [HasCode],
    and the [stack] rendering used by the log projection), followed by the
    properties of the error chain.

    Go values of type [*Error[T]] are pointers: builder methods mutate the
    node in place and a wrapper keeps a reference to its cause.  The
    embedding therefore keeps every node in a store ([heap]) indexed by
    address, and an [error] interface value holding an [*Error[T]] is the
    address of the node.  A method that walks the chain takes a [fuel]
    bound, because nothing in the code prevents a cyclic chain; [None]
    stands for a run that does not return a value (fuel exhausted, or a
    dereference of an address that is not allocated).

    A code type [T ~string] can have methods of its own.  [Error()]
    passes the code to [fmt] under the verb [%s], which calls them, so
    what [fmt] writes for a code is given by the class [CodeFormat]; every
    statement about [Error()] and [LogValue()] holds for every such
    rendering. *)

From stdpp Require Import gmap strings list pretty.

(** ** Go values *)

(** Values of the empty interface [any] stored by [With], together with
    the values of [slog.Value], which are among them: [any_Attrs] is a
    [[]slog.Attr] and [any_Value] a [slog.Value], the two dynamic types
    [slog.AnyValue] turns into a value of their own instead of keeping
    them as they are. *)
Inductive any : Type :=
  | any_nil
  | any_int (z : Z)
  | any_string (s : string)
  | any_bool (b : bool)
  | any_strings (l : list string)
  | any_Attrs (attrs : list (string * Value))
  | any_Value (v : Value)
with Value : Type :=
  | KindAny (v : any)
  | KindBool (b : bool)
  | KindInt64 (z : Z)
  | KindString (s : string)
  | KindGroup (attrs : list (string * Value)).

Abbreviation addr := nat (only parsing).

(** Values of the interface type [error].  [ptr p] is an [*Error[T]].
    The other dynamic types are the ones the standard library produces
    for [fmt.Errorf] ([errorString] without a [%w] verb, [wrapError] with
    one), and [taggedError], a type of another package that has a
    [GetTags() []string] method and nothing else besides [Error()]. *)
Inductive error : Type :=
  | err_nil
  | errorString (s : string)
  | wrapError (msg : string) (err : error)
  | taggedError (msg : string) (ts : list string)
  | ptr (p : addr).

Definition is_nil (err : error) : bool :=
  match err with err_nil => true | _ => false end.

(** ** Package strings of the standard library

    The functions stack.go calls, on the bytes of a string.  [Index] and
    [LastIndex] return [-1] when [substr] does not occur; [slice_from s i]
    is [s[i:]], which does not return when [i] is out of range. *)

Module strings.

Definition bytes (s : string) : list Ascii.ascii := String.list_ascii_of_string s.

Definition of_bytes (l : list Ascii.ascii) : string := String.string_of_list_ascii l.

Fixpoint index_of (sub l : list Ascii.ascii) : option nat :=
  if decide (sub `prefix_of` l) then Some 0
  else match l with
       | [] => None
       | _ :: l' => S <$> index_of sub l'
       end.

Fixpoint last_index_of (sub l : list Ascii.ascii) : option nat :=
  match l with
  | [] => if decide (sub `prefix_of` l) then Some 0 else None
  | _ :: l' =>
      match last_index_of sub l' with
      | Some i => Some (S i)
      | None => if decide (sub `prefix_of` l) then Some 0 else None
      end
  end.

Definition Index (s substr : string) : Z :=
  match index_of (bytes substr) (bytes s) with
  | Some i => Z.of_nat i
  | None => -1
  end.

Definition LastIndex (s substr : string) : Z :=
  match last_index_of (bytes substr) (bytes s) with
  | Some i => Z.of_nat i
  | None => -1
  end.

Definition Contains (s substr : string) : bool :=
  bool_decide (0 ≤ Index s substr)%Z.

Definition slice_from (s : string) (i : Z) : option string :=
  if bool_decide (0 ≤ i ≤ Z.of_nat (length (bytes s)))%Z
  then Some (of_bytes (drop (Z.to_nat i) (bytes s)))
  else None.

End strings.

(** ** stack.go

    The snapshot type and its rendering.  What [captureStack] reads from
    the runtime is an input of [New]. *)

Module Stack.

Record stackFrame : Type := {
  pc : Z;
  file : string;
  function : string;
  line : Z
}.

(** [fmt.Sprintf("%s:%d %s()", ...)] and [fmt.Sprintf("%s:%d", ...)]. *)
Definition stackFrame_String (f : stackFrame) : string :=
  if bool_decide (function f ≠ "")
  then file f +:+ ":" +:+ pretty (line f) +:+ " " +:+ function f +:+ "()"
  else file f +:+ ":" +:+ pretty (line f).

Record stack : Type := { frames : list stackFrame }.

(** The line feed written before each frame. *)
Definition newline : string := String (Ascii.ascii_of_nat 10) EmptyString.

Definition String (s : stack) : string :=
  foldl (λ sb frame, sb +:+ newline +:+ "    at " +:+ stackFrame_String frame)
        "" (frames s).

Definition defaultStackDepth : nat := 32.

(** The fields of [runtime.Frame] that are read. *)
Record Frame : Type := {
  PC : Z;
  Function : string;
  File : string;
  Line : Z
}.

Definition trimGoPath (path : string) : option string :=
  let i := strings.LastIndex path "/go/src/" in
  if bool_decide (i ≠ -1)%Z then strings.slice_from path (i + 8) else Some path.

Definition trimFuncName (name : string) : option string :=
  name ←
    (let i := strings.LastIndex name "/" in
     if bool_decide (i ≠ -1)%Z then strings.slice_from name (i + 1)
     else Some name);
  let i := strings.Index name "." in
  if bool_decide (i ≠ -1)%Z then strings.slice_from name (i + 1) else Some name.

(** The loop of [captureStack].  [iter] holds the frames the iterator has
    still to yield; [Next] reports [more = false] together with the last
    of them, and also when none is left. *)
Fixpoint captureStack_loop (iter : list Frame) (frames : list stackFrame)
  : option (list stackFrame) :=
  match iter with
  | [] => Some frames
  | frame :: iter' =>
      match iter' with
      | [] => Some frames
      | _ =>
          if strings.Contains (File frame) "runtime/"
             || strings.Contains (File frame) "_test.go"
          then captureStack_loop iter' frames
          else
            file' ← trimGoPath (File frame);
            function' ← trimFuncName (Function frame);
            captureStack_loop iter'
              (frames ++ [Build_stackFrame (PC frame) file' function' (Line frame)])
      end
  end.

(** [captureStack(skip)]: [n] is what [runtime.Callers(skip+1, pcs)]
    returned for the [defaultStackDepth] slots of [pcs], and [iter] the
    frames [runtime.CallersFrames(pcs[:n])] yields.  [Some None] is the
    nil snapshot. *)
Definition captureStack (n : nat) (iter : list Frame) : option (option stack) :=
  if bool_decide (n = 0) then Some None
  else
    frames ← captureStack_loop iter [];
    Some (Some (Build_stack frames)).

End Stack.

(** ** hashset.Set[string] of gods/v2

    The set type behind the [tags] field, with the five operations the
    package calls.  [Values] returns the elements in no particular order. *)

Module hashset.

Definition New : gset string := ∅.

Definition Add (set : gset string) (items : list string) : gset string :=
  foldl (λ s item, {[item]} ∪ s) set items.

Definition Contains (set : gset string) (items : list string) : bool :=
  forallb (λ item, bool_decide (item ∈ set)) items.

Definition Values (set : gset string) : list string := elements set.

Definition Empty (set : gset string) : bool := bool_decide (size set = 0).

End hashset.

(** ** log/slog values

    The part of [slog.Value] and [slog.Attr] that [LogValue] builds: the
    kinds a value can have and the constructors [String], [Any], [Group]
    and [GroupValue].  [keys] and [field] read a group back. *)

Module slog.

Abbreviation Value := Value (only parsing).
Abbreviation KindAny := KindAny (only parsing).
Abbreviation KindBool := KindBool (only parsing).
Abbreviation KindInt64 := KindInt64 (only parsing).
Abbreviation KindString := KindString (only parsing).
Abbreviation KindGroup := KindGroup (only parsing).

Abbreviation Attr := (string * Value)%type (only parsing).

Definition StringValue (s : string) : Value := KindString s.

Definition isEmptyGroup (v : Value) : bool :=
  match v with KindGroup [] => true | _ => false end.

(** [GroupValue] drops the attributes whose value is an empty group. *)
Definition GroupValue (attrs : list Attr) : Value :=
  KindGroup (filter (λ a, isEmptyGroup a.2 = false) attrs).

(** [AnyValue]: a [[]Attr] becomes the group [GroupValue] makes of it, a
    [Value] is returned as it is, the basic types get their kind, and
    every other value is kept under [KindAny]. *)
Definition AnyValue (v : any) : Value :=
  match v with
  | any_string s => KindString s
  | any_int z => KindInt64 z
  | any_bool b => KindBool b
  | any_Attrs attrs => GroupValue attrs
  | any_Value v' => v'
  | _ => KindAny v
  end.

Definition String (key value : string) : Attr := (key, StringValue value).

Definition Any (key : string) (value : any) : Attr := (key, AnyValue value).

(** [slog.Any(key, v)] for a [v] that is already a [Value]. *)
Definition AnyOfValue (key : string) (value : Value) : Attr := (key, value).

(** [slog.Group(key, k1, v1, k2, v2, ...)] with string keys. *)
Definition Group (key : string) (args : list (string * any)) : Attr :=
  (key, GroupValue ((λ kv, Any kv.1 kv.2) <$> args)).

Definition keys (v : Value) : list string :=
  match v with KindGroup attrs => attrs.*1 | _ => [] end.

Definition field (key : string) (v : Value) : option Value :=
  match v with
  | KindGroup attrs => snd <$> List.find (λ a, bool_decide (a.1 = key)) attrs
  | _ => None
  end.

End slog.

(** ** The error node *)

(** [Error[T]]: [tparam] names the code type [T] the node was
    instantiated with; two nodes have the same Go type exactly when their
    [tparam]s agree. *)
Record Error : Type := mkError {
  tparam : string;
  code : string;
  wrappedErr : error;
  tags : gset string;
  data : gmap string any;
  stack : option Stack.stack
}.

Definition set_wrappedErr (err : error) (e : Error) : Error :=
  mkError (tparam e) (code e) err (tags e) (data e) (stack e).

Definition set_tags (ts : gset string) (e : Error) : Error :=
  mkError (tparam e) (code e) (wrappedErr e) ts (data e) (stack e).

Definition set_data (d : gmap string any) (e : Error) : Error :=
  mkError (tparam e) (code e) (wrappedErr e) (tags e) d (stack e).

Abbreviation heap := (gmap addr Error) (only parsing).

(** [New[T](code)]: [T] is the instantiation, [stk] what [captureStack(1)]
    returned.  The result is the new store and the address of the node. *)
Definition New (h : heap) (T : string) (c : string) (stk : option Stack.stack)
  : heap * addr :=
  let e := fresh (dom h) in
  (<[e := mkError T c err_nil hashset.New ∅ stk]> h, e).

(** *** Builders.  Each returns its receiver; the model returns the store. *)

Definition Error_Tags (h : heap) (e : addr) (ts : list string) : option heap :=
  n ← h !! e;
  Some (<[e := set_tags (hashset.Add (tags n) ts) n]> h).

Definition Error_HasTags (h : heap) (e : addr) (ts : list string) : option bool :=
  n ← h !! e;
  Some (hashset.Contains (tags n) ts).

Definition Error_GetTags (h : heap) (e : addr) : option (list string) :=
  n ← h !! e;
  Some (hashset.Values (tags n)).

Definition Error_With (h : heap) (e : addr) (k : string) (v : any) : option heap :=
  n ← h !! e;
  Some (<[e := set_data (<[k := v]> (data n)) n]> h).

Definition Error_Get (h : heap) (e : addr) (key : string) : option (any * bool) :=
  n ← h !! e;
  Some match data n !! key with
       | Some val => (val, true)
       | None => (any_nil, false)
       end.

(** The type assertion [err.(interface{ GetTags() []string })] followed by
    the call: [Some None] when the assertion fails. *)
Definition call_GetTags (h : heap) (err : error) : option (option (list string)) :=
  match err with
  | ptr q => ts ← Error_GetTags h q; Some (Some ts)
  | taggedError _ ts => Some (Some ts)
  | _ => Some None
  end.

Definition Error_WithError (h : heap) (e : addr) (err : error) : option heap :=
  n ← h !! e;
  let h1 := <[e := set_wrappedErr err n]> h in
  r ← call_GetTags h1 err;
  match r with
  | Some ts =>
      n1 ← h1 !! e;
      Some (<[e := set_tags (hashset.Add (tags n1) ts) n1]> h1)
  | None => Some h1
  end.

Section Errorf.

(** [fmt.Errorf] is taken as given. *)
Variable fmt_Errorf : string → list any → error.

Definition Error_Errorf (h : heap) (e : addr) (format : string) (a : list any)
  : option heap :=
  n ← h !! e;
  Some (<[e := set_wrappedErr (fmt_Errorf format a) n]> h).

End Errorf.

Definition Error_Code (h : heap) (e : addr) : option string :=
  n ← h !! e; Some (code n).

Definition Error_CodeString (h : heap) (e : addr) : option string :=
  n ← h !! e; Some (code n).

Definition Error_Unwrap (h : heap) (e : addr) : option error :=
  n ← h !! e; Some (wrappedErr n).

(** *** Dynamic dispatch on an [error] value *)

(** [err.Error()] for a non-nil [err]; [self] is the method of [*Error[T]]. *)
Definition call_Error (self : addr → option string) (err : error) : option string :=
  match err with
  | err_nil => None
  | errorString s => Some s
  | wrapError msg _ => Some msg
  | taggedError msg _ => Some msg
  | ptr q => self q
  end.

(** What [fmt] writes for a code [c] of code type [T] under the verb
    [%s]: the string [c] itself, unless [T] has a [Format], an [Error] or
    a [String] method, which [fmt] then calls.  The methods of the code
    types belong to the packages that declare them, so the rendering is
    given. *)
Class CodeFormat : Type := fmt_s : string → string → string.

(** [fmt.Sprintf("%s: %s", e.code, e.wrappedErr.Error())] with a cause,
    [string(e.code)] without. *)
Fixpoint Error_Error {cf : CodeFormat} (fuel : nat) (h : heap) (e : addr)
  : option string :=
  match fuel with
  | 0 => None
  | S fuel' =>
      n ← h !! e;
      if is_nil (wrappedErr n) then Some (code n)
      else
        m ← call_Error (Error_Error fuel' h) (wrappedErr n);
        Some (fmt_s (tparam n) (code n) +:+ ": " +:+ m)
  end.

Definition Error_Is (h : heap) (e : addr) (target : error) : option bool :=
  n ← h !! e;
  match target with
  | ptr q =>
      t ← h !! q;
      if decide (tparam t = tparam n)
      then Some (bool_decide (code n = code t))
      else Some false
  | _ => Some false
  end.

(** [e.As(target)] for a [target] of type [**Error[T]]: the result is the
    pointer stored through [target], if any. *)
Fixpoint Error_As (fuel : nat) (h : heap) (e : addr) (T : string)
  : option (option addr) :=
  match fuel with
  | 0 => None
  | S fuel' =>
      n ← h !! e;
      if decide (tparam n = T) then Some (Some e)
      else
        match wrappedErr n with
        | ptr q => Error_As fuel' h q T
        | _ => Some None
        end
  end.

Fixpoint Error_LogValue {cf : CodeFormat} (fuel : nat) (h : heap) (e : addr)
  : option slog.Value :=
  match fuel with
  | 0 => None
  | S fuel' =>
      n ← h !! e;
      msg ← Error_Error fuel h e;
      let attrs := [slog.String "code" (code n); slog.String "error" msg] in
      let attrs :=
        if bool_decide (0 < size (data n))
        then attrs ++ [slog.Group "data" (map_to_list (data n))]
        else attrs in
      let attrs :=
        if negb (hashset.Empty (tags n))
        then attrs ++ [slog.Any "tags" (any_strings (hashset.Values (tags n)))]
        else attrs in
      attrs ←
        match wrappedErr n with
        | err_nil => Some attrs
        | ptr q =>
            v ← Error_LogValue fuel' h q;
            Some (attrs ++ [slog.AnyOfValue "wrapped" v])
        | w =>
            m ← call_Error (Error_Error fuel h) w;
            Some (attrs ++ [slog.String "wrapped" m])
        end;
      let attrs :=
        match stack n with
        | Some s => attrs ++ [slog.String "stack" (Stack.String s)]
        | None => attrs
        end in
      Some (slog.GroupValue attrs)
  end.

(** ** Package errors of the standard library

    [errors.As] as the helpers call it, with a target of type
    [**Error[T]]: at each error of the chain it first compares the
    dynamic type with the target type, then tries the [As] method when
    there is one, then follows [Unwrap]. *)

Module errors.

(** The loop of [errors.As] on a non-nil [err], for a target of type
    [**Error[T]]. *)
Fixpoint as_ (fuel : nat) (h : heap) (err : error) (T : string)
  : option (option addr) :=
  match fuel with
  | 0 => None
  | S fuel' =>
      match err with
      | err_nil => None
      | ptr p =>
          n ← h !! p;
          if decide (tparam n = T) then Some (Some p)
          else
            r ← Error_As fuel' h p T;
            match r with
            | Some q => Some (Some q)
            | None =>
                if is_nil (wrappedErr n) then Some None
                else as_ fuel' h (wrappedErr n) T
            end
      | wrapError _ inner =>
          if is_nil inner then Some None else as_ fuel' h inner T
      | errorString _ | taggedError _ _ => Some None
      end
  end.

Definition As (fuel : nat) (h : heap) (err : error) (T : string)
  : option (option addr) :=
  if is_nil err then Some None else as_ fuel h err T.

End errors.

(** ** Chain helpers *)

Definition As {V : Type} (fuel : nat) (h : heap) (err : error) (T : string)
    (fn : addr → V) : option (option V * bool) :=
  r ← errors.As fuel h err T;
  Some match r with
       | Some zerr => (Some (fn zerr), true)
       | None => (None, false)
       end.

Definition HasCode (fuel : nat) (h : heap) (err : error) (T : string) (c : string)
  : option bool :=
  r ← errors.As fuel h err T;
  match r with
  | Some e => n ← h !! e; Some (bool_decide (code n = c))
  | None => Some false
  end.

(** ** The causal chain *)

(** [err.Unwrap()] where the dynamic type of [err] has the method, and
    [err_nil] where it has not. *)
Definition call_Unwrap (h : heap) (err : error) : option error :=
  match err with
  | ptr p => Error_Unwrap h p
  | wrapError _ inner => Some inner
  | _ => Some err_nil
  end.

(** [chain h err l]: following the causal links from [err] visits exactly
    the errors of [l], in this order, and then reaches no further cause.
    A chain that exists is finite and all its nodes are allocated. *)
Inductive chain (h : heap) : error → list error → Prop :=
  | chain_end : chain h err_nil []
  | chain_link err next l :
      err ≠ err_nil →
      call_Unwrap h err = Some next →
      chain h next l →
      chain h err (err :: l).

(** [err] is an [*Error[T]]. *)
Definition has_code_type (h : heap) (T : string) (err : error) : bool :=
  match err with
  | ptr p =>
      match h !! p with
      | Some n => bool_decide (tparam n = T)
      | None => false
      end
  | _ => false
  end.

(** The first node of code type [T] among the errors of [l]. *)
Fixpoint first_of_type (h : heap) (T : string) (l : list error) : option addr :=
  match l with
  | [] => None
  | err :: l' =>
      match err with
      | ptr p => if has_code_type h T err then Some p else first_of_type h T l'
      | _ => first_of_type h T l'
      end
  end.

(** A node of code type [T] with code [c] occurs in [l]. *)
Definition code_in_chain (h : heap) (T c : string) (l : list error) : Prop :=
  ∃ p n, ptr p ∈ l ∧ h !! p = Some n ∧ tparam n = T ∧ code n = c.

(** The first node of code type [T] among the leading [*Error] nodes of
    [l]: what the [As] method of the first node can reach. *)
Fixpoint first_in_run (h : heap) (T : string) (l : list error) : option addr :=
  match l with
  | ptr p :: l' =>
      if has_code_type h T (ptr p) then Some p else first_in_run h T l'
  | _ => None
  end.

(** The attributes [LogValue] collects for node [n], given the rendered
    message and the attribute made for the cause. *)
Definition LogValue_attrs (n : Error) (msg : string)
    (wrapped : list (string * slog.Value)) : list (string * slog.Value) :=
  [slog.String "code" (code n); slog.String "error" msg]
  ++ (if bool_decide (data n = ∅) then []
      else [slog.Group "data" (map_to_list (data n))])
  ++ (if bool_decide (tags n = ∅) then []
      else [slog.Any "tags" (any_strings (hashset.Values (tags n)))])
  ++ wrapped
  ++ match stack n with
     | Some s => [slog.String "stack" (Stack.String s)]
     | None => []
     end.

(** The attributes [slog.Group] keeps of the data of node [n]: not those
    whose value is an empty group. *)
Definition data_attrs (n : Error) : list (string * slog.Value) :=
  filter (λ a, slog.isEmptyGroup a.2 = false)
         ((λ kv : string * any, slog.Any kv.1 kv.2) <$> map_to_list (data n)).

(** The attributes of [LogValue_attrs] that [slog.GroupValue] keeps. *)
Definition LogValue_shown (n : Error) (msg : string)
    (wrapped : list (string * slog.Value)) : list (string * slog.Value) :=
  [slog.String "code" (code n); slog.String "error" msg]
  ++ match data_attrs n with
     | [] => []
     | _ => [("data", slog.KindGroup (data_attrs n))]
     end
  ++ (if bool_decide (tags n = ∅) then []
      else [slog.Any "tags" (any_strings (hashset.Values (tags n)))])
  ++ wrapped
  ++ match stack n with
     | Some s => [slog.String "stack" (Stack.String s)]
     | None => []
     end.

Definition LogValue_wrapped {cf : CodeFormat} (fuel : nat) (h : heap) (n : Error)
  : option (list (string * slog.Value)) :=
  match wrappedErr n with
  | err_nil => Some []
  | ptr q => v ← Error_LogValue fuel h q; Some [slog.AnyOfValue "wrapped" v]
  | w => m ← call_Error (Error_Error (S fuel) h) w; Some [slog.String "wrapped" m]
  end.

(** The operations of the public interface, and the value each returns. *)
Inductive op : Type :=
  | OpNew (T c : string) (stk : option Stack.stack)
  | OpTags (e : addr) (ts : list string)
  | OpWith (e : addr) (k : string) (v : any)
  | OpWithError (e : addr) (err : error)
  | OpErrorf (e : addr) (format : string) (a : list any)
  | OpHasTags (e : addr) (ts : list string)
  | OpGetTags (e : addr)
  | OpGet (e : addr) (key : string)
  | OpCode (e : addr)
  | OpCodeString (e : addr)
  | OpError (e : addr)
  | OpUnwrap (e : addr)
  | OpIs (e : addr) (target : error)
  | OpAs (e : addr) (T : string)
  | OpLogValue (e : addr)
  | OpHasCode (err : error) (T c : string)
  | OpFindAs (err : error) (T : string).

Inductive result : Type :=
  | RSelf (e : addr)
  | RBool (b : bool)
  | RStrings (l : list string)
  | RData (v : any) (ok : bool)
  | RString (s : string)
  | RError (err : error)
  | RPtr (p : option addr)
  | RValue (v : slog.Value).

Section Exec.

Variable fmt_Errorf : string → list any → error.
Context {cf : CodeFormat}.

(** One call: the store after it and the value returned. *)
Definition exec (fuel : nat) (h : heap) (o : op) : option (heap * result) :=
  match o with
  | OpNew T c stk => let '(h', e) := New h T c stk in Some (h', RSelf e)
  | OpTags e ts => h' ← Error_Tags h e ts; Some (h', RSelf e)
  | OpWith e k v => h' ← Error_With h e k v; Some (h', RSelf e)
  | OpWithError e err => h' ← Error_WithError h e err; Some (h', RSelf e)
  | OpErrorf e format a =>
      h' ← Error_Errorf fmt_Errorf h e format a; Some (h', RSelf e)
  | OpHasTags e ts => b ← Error_HasTags h e ts; Some (h, RBool b)
  | OpGetTags e => l ← Error_GetTags h e; Some (h, RStrings l)
  | OpGet e key => '(v, ok) ← Error_Get h e key; Some (h, RData v ok)
  | OpCode e => s ← Error_Code h e; Some (h, RString s)
  | OpCodeString e => s ← Error_CodeString h e; Some (h, RString s)
  | OpError e => s ← Error_Error fuel h e; Some (h, RString s)
  | OpUnwrap e => err ← Error_Unwrap h e; Some (h, RError err)
  | OpIs e target => b ← Error_Is h e target; Some (h, RBool b)
  | OpAs e T => r ← Error_As fuel h e T; Some (h, RPtr r)
  | OpLogValue e => v ← Error_LogValue fuel h e; Some (h, RValue v)
  | OpHasCode err T c => b ← HasCode fuel h err T c; Some (h, RBool b)
  | OpFindAs err T => '(r, _) ← As fuel h err T id; Some (h, RPtr r)
  end.

(** A sequence of calls, threading the store. *)
Fixpoint run (fuel : nat) (h : heap) (os : list op) : option heap :=
  match os with
  | [] => Some h
  | o :: os' => '(h', _) ← exec fuel h o; run fuel h' os'
  end.

End Exec.

(** What a later state [n'] of a node keeps of an earlier state [n]: the
    code type, the code and the snapshot, every tag and every data key. *)
Definition extends (n n' : Error) : Prop :=
  tparam n' = tparam n ∧ code n' = code n ∧ stack n' = stack n ∧
  tags n ⊆ tags n' ∧ dom (data n) ⊆ dom (data n').

(** The frames the loop of [captureStack] does not skip. *)
Definition kept (frame : Stack.Frame) : bool :=
  negb (strings.Contains (Stack.File frame) "runtime/"
        || strings.Contains (Stack.File frame) "_test.go").

(** How a recorded frame comes from a frame of the runtime. *)
Definition recorded (f : Stack.stackFrame) (frame : Stack.Frame) : Prop :=
  Stack.pc f = Stack.PC frame ∧ Stack.line f = Stack.Line frame ∧
  Stack.trimGoPath (Stack.File frame) = Some (Stack.file f) ∧
  Stack.trimFuncName (Stack.Function frame) = Some (Stack.function f).

(** ** Example stores *)

(** [fmt.Errorf] on a format without verbs. *)
Definition plain_Errorf (format : string) (_ : list any) : error :=
  errorString format.

(** Code types without methods: [fmt] writes the code itself. *)
Definition no_methods : CodeFormat := λ _ c, c.

(** The code type [bracketErr] has the method
    [func (c bracketErr) String() string { return "<" + string(c) + ">" }];
    the other code types have none. *)
Definition bracket_String : CodeFormat :=
  λ T c, if decide (T = "bracketErr") then "<" +:+ c +:+ ">" else c.

Module Examples.

(** [outer(domainErr "not_found", user_id=123) -> inner(dbErr
    "zero_rows", req_id=10) -> "db returned no rows"], the chain of
    [Test_ErrorCreation]. *)
Definition creation : option heap :=
  let '(h, outer) := New ∅ "domainErr" "not_found" None in
  h ← Error_With h outer "user_id" (any_int 123);
  h ← Error_With h outer "trace" (any_string "1234");
  h ← Error_Errorf plain_Errorf h outer "message" [];
  let '(h, inner) := New h "dbErr" "zero_rows" None in
  h ← Error_With h inner "req_id" (any_int 10);
  h ← Error_Errorf plain_Errorf h inner "db returned no rows" [];
  Error_WithError h outer (ptr inner).

(** Two nodes of the same code type with different codes. *)
Definition same_type : heap :=
  {[ 0 := mkError "domainErr" "not_found" (ptr 1) ∅ ∅ None;
     1 := mkError "domainErr" "bad_request" err_nil ∅ ∅ None ]}.

(** A node with code [A] wrapping a node with code [B] wrapping the plain
    message [m]. *)
Definition a_b_m : heap :=
  {[ 0 := mkError "codeA" "A" (ptr 1) ∅ ∅ None;
     1 := mkError "codeB" "B" (errorString "m") ∅ ∅ None ]}.

(** Two nodes with the same code text under different code types. *)
Definition same_text : heap :=
  {[ 0 := mkError "domainErr" "not_found" err_nil ∅ ∅ None;
     1 := mkError "dbErr" "not_found" err_nil ∅ ∅ None ]}.

(** The store [creation] builds. *)
Definition wrapped_pair : heap :=
  {[ 0 := mkError "domainErr" "not_found" (ptr 1) ∅
            {[ "user_id" := any_int 123; "trace" := any_string "1234" ]} None;
     1 := mkError "dbErr" "zero_rows" (errorString "db returned no rows") ∅
            {[ "req_id" := any_int 10 ]} None ]}.

(** The two nodes of [Test_Tags] before [WithError]. *)
Definition tagged : heap :=
  {[ 0 := mkError "domainErr" "not_found" err_nil {[ "iam"; "authz" ]} ∅ None;
     1 := mkError "anotherErr" "unauthorized" err_nil {[ "permission" ]} ∅ None ]}.

(** A frame and a snapshot. *)
Definition frame : Stack.stackFrame :=
  Stack.Build_stackFrame 4198400 "zerrors/main.go" "main.findUser" 25.

(** A node that wraps itself. *)
Definition self_wrapped : heap :=
  {[ 0 := mkError "domainErr" "not_found" (ptr 0) ∅ ∅ None ]}.

(** A node whose cause is made by [fmt.Errorf] with [%w] around a node
    of another code type. *)
Definition through_wrapper : heap :=
  {[ 0 := mkError "domainErr" "not_found"
            (wrapError "query: zero_rows" (ptr 1)) ∅ ∅ None;
     1 := mkError "dbErr" "zero_rows" err_nil ∅ ∅ None ]}.

(** Two nodes of the code type [bracketErr] with the code [A], one with
    a cause and one without. *)
Definition bracketed : heap :=
  {[ 0 := mkError "bracketErr" "A" (errorString "m") ∅ ∅ None;
     1 := mkError "bracketErr" "A" err_nil ∅ ∅ None ]}.


End Examples.

(** ** Basic facts about chains *)

Lemma chain_ptr_inv (h : heap) p l :
  chain h (ptr p) l →
  ∃ n l', h !! p = Some n ∧ l = ptr p :: l' ∧ chain h (wrappedErr n) l'.
Proof.
  inversion 1 as [|err next l' _ Hnext Hrest]; subst.
  unfold call_Unwrap, Error_Unwrap in Hnext.
  destruct (h !! p) as [n|] eqn:Hn; simplify_eq/=. eauto.
Qed.

Lemma chain_nil_inv (h : heap) l : chain h err_nil l → l = [].
Proof. by inversion 1. Qed.

Lemma chain_functional (h : heap) err l1 l2 :
  chain h err l1 → chain h err l2 → l1 = l2.
Proof.
  intros H1. revert l2.
  induction H1 as [|err next l Hne Hnext _ IH]; intros l2 H2.
  - by inversion H2.
  - inversion H2; simplify_eq. f_equal. by apply IH.
Qed.

Lemma chain_is_nil (h : heap) err l :
  chain h err l → is_nil err = true → l = [].
Proof. destruct err; try done. intros H _. by apply chain_nil_inv in H. Qed.

Lemma first_in_run_first_of_type (h : heap) T l q :
  first_in_run h T l = Some q → first_of_type h T l = Some q.
Proof.
  induction l as [|[| | | |p] l IH]; simpl; try done.
  destruct (h !! p) as [n|]; [case_bool_decide|]; eauto.
Qed.

Lemma Error_As_chain (h : heap) T l :
  ∀ e fuel, chain h (ptr e) l → length l ≤ fuel →
    Error_As fuel h e T = Some (first_in_run h T l).
Proof.
  induction l as [|x l IH]; intros e fuel Hc Hlen;
    apply chain_ptr_inv in Hc as (n & l' & Hn & Heq & Hrest); simplify_eq/=.
  destruct fuel as [|fuel]; [lia|].
  simpl. rewrite Hn. simpl.
  case_decide as HT.
  - by rewrite bool_decide_eq_true_2.
  - rewrite bool_decide_eq_false_2 by done.
    destruct (wrappedErr n) as [| | | |q] eqn:Hw;
      try (inversion Hrest; subst; simpl; done).
    apply IH; [done|lia].
Qed.

Lemma as_chain (h : heap) T err l :
  chain h err l → err ≠ err_nil →
  ∀ fuel, length l < fuel →
    errors.as_ fuel h err T = Some (first_of_type h T l).
Proof.
  induction 1 as [|err next l Hne Hnext Hrest IH]; [done|].
  intros _ fuel Hlen. simpl in Hlen.
  destruct fuel as [|fuel]; [lia|].
  assert ((if is_nil next then Some None else errors.as_ fuel h next T)
          = Some (first_of_type h T l)) as Hstep.
  { destruct (is_nil next) eqn:Hnil.
    - by rewrite (chain_is_nil _ _ _ Hrest Hnil).
    - apply IH; [by intros ->|lia]. }
  destruct err as [| s | msg inner | msg ts | p]; simpl in *; simplify_eq;
    try done; try (by inversion Hrest).
  unfold Error_Unwrap in Hnext.
  destruct (h !! p) as [n|] eqn:Hn; simplify_eq/=.
  case_decide as HT.
  - by rewrite bool_decide_eq_true_2.
  - rewrite bool_decide_eq_false_2 by done.
    assert (chain h (ptr p) (ptr p :: l)) as Hc.
    { econstructor; [done| |done]. simpl. unfold Error_Unwrap. by rewrite Hn. }
    rewrite (Error_As_chain h T _ p fuel Hc) by (simpl; lia).
    simpl. rewrite Hn. simpl. rewrite bool_decide_eq_false_2 by done.
    destruct (first_in_run h T l) as [q|] eqn:Hrun; simpl; [|done].
    by rewrite (first_in_run_first_of_type _ _ _ _ Hrun).
Qed.

Lemma errors_As_chain (h : heap) T err l fuel :
  chain h err l → length l < fuel →
  errors.As fuel h err T = Some (first_of_type h T l).
Proof.
  intros Hc Hlen. unfold errors.As.
  destruct (is_nil err) eqn:Hnil.
  - by rewrite (chain_is_nil _ _ _ Hc Hnil).
  - apply as_chain; [done| |done]. by intros ->.
Qed.

(** [first_of_type] returns the earliest node of the requested type. *)
Lemma first_of_type_Some (h : heap) T l p :
  first_of_type h T l = Some p ↔
  ∃ l1 l2 n, l = l1 ++ ptr p :: l2 ∧ h !! p = Some n ∧ tparam n = T ∧
             Forall (λ err, has_code_type h T err = false) l1.
Proof.
  induction l as [|x l IH]; simpl.
  - split; [done|]. intros (l1 & ? & ? & Heq & _). by destruct l1.
  - assert (has_code_type h T x = false →
            (first_of_type h T l = Some p ↔
             ∃ l1 l2 n, x :: l = l1 ++ ptr p :: l2 ∧ h !! p = Some n ∧
               tparam n = T ∧ Forall (λ err, has_code_type h T err = false) l1))
      as Hskip.
    { intros Hx. rewrite IH. split.
      - intros (l1 & l2 & n & -> & ? & ? & ?).
        exists (x :: l1), l2, n. by repeat split; try constructor.
      - intros (l1 & l2 & n & Heq & Hn & HT & Hall).
        destruct l1 as [|y l1]; simplify_eq/=.
        + rewrite Hn in Hx. by rewrite bool_decide_eq_true_2 in Hx.
        + inversion Hall; subst. exists l1, l2, n. done. }
    destruct x as [| | | |q]; try (by apply Hskip).
    destruct (has_code_type h T (ptr q)) eqn:Hq; [|by apply Hskip].
    simpl in Hq. destruct (h !! q) as [n|] eqn:Hn; [|done].
    apply bool_decide_eq_true_1 in Hq. split.
    + intros [= <-]. exists [], l, n. done.
    + intros (l1 & l2 & n' & Heq & Hn' & HT & Hall).
      destruct l1 as [|y l1]; simplify_eq/=; [done|].
      inversion Hall as [|?? Hy]; subst. simpl in Hy.
      rewrite Hn in Hy. by rewrite bool_decide_eq_true_2 in Hy.
Qed.

Lemma first_of_type_None (h : heap) T l :
  first_of_type h T l = None ↔
  Forall (λ err, has_code_type h T err = false) l.
Proof.
  induction l as [|x l IH]; simpl; [done|].
  destruct x as [| | | |q];
    try (rewrite IH; split; [by constructor|by inversion 1]).
  destruct (has_code_type h T (ptr q)) eqn:Hq.
  - split; [done|]. inversion 1; congruence.
  - rewrite IH. split; [by constructor|by inversion 1].
Qed.

(** ** Fuel

    A run that returns with some fuel returns the same value with more. *)

Lemma Error_Error_fuel_mono {cf : CodeFormat} (h : heap) fuel :
  ∀ fuel' e m, fuel ≤ fuel' →
    Error_Error fuel h e = Some m → Error_Error fuel' h e = Some m.
Proof.
  induction fuel as [|fuel IH]; intros [|fuel'] e m Hle; simpl; try done; [lia|].
  destruct (h !! e) as [n|]; simpl; [|done].
  destruct (wrappedErr n) as [| | | |q]; simpl; try done.
  destruct (Error_Error fuel h q) as [mq|] eqn:Hq; simpl; [|done].
  by rewrite (IH fuel' q mq ltac:(lia) Hq).
Qed.

Lemma Error_As_fuel_mono (h : heap) T fuel :
  ∀ fuel' e r, fuel ≤ fuel' →
    Error_As fuel h e T = Some r → Error_As fuel' h e T = Some r.
Proof.
  induction fuel as [|fuel IH]; intros [|fuel'] e r Hle; simpl; try done; [lia|].
  destruct (h !! e) as [n|]; simpl; [|done].
  case_decide; [done|].
  destruct (wrappedErr n) as [| | | |q]; try done.
  apply IH. lia.
Qed.

Lemma as_fuel_mono (h : heap) T fuel :
  ∀ fuel' err r, fuel ≤ fuel' →
    errors.as_ fuel h err T = Some r → errors.as_ fuel' h err T = Some r.
Proof.
  induction fuel as [|fuel IH]; intros [|fuel'] err r Hle; simpl; try done; [lia|].
  destruct err as [| s | msg inner | msg ts | p]; try done.
  - destruct (is_nil inner); [done|]. apply IH. lia.
  - destruct (h !! p) as [n|]; simpl; [|done].
    case_decide; [done|].
    destruct (Error_As fuel h p T) as [r'|] eqn:Has; simpl; [|done].
    rewrite (Error_As_fuel_mono h T fuel fuel' p r' ltac:(lia) Has). simpl.
    destruct r'; [done|]. destruct (is_nil (wrappedErr n)); [done|].
    apply IH. lia.
Qed.

Lemma Error_LogValue_fuel_mono {cf : CodeFormat} (h : heap) fuel :
  ∀ fuel' e v, fuel ≤ fuel' →
    Error_LogValue fuel h e = Some v → Error_LogValue fuel' h e = Some v.
Proof.
  induction fuel as [|fuel IH]; intros [|fuel'] e v Hle; try done; [lia|].
  cbn [Error_LogValue].
  destruct (h !! e) as [n|]; cbn [mbind option_bind]; [|done].
  destruct (Error_Error (S fuel) h e) as [msg|] eqn:Hmsg;
    cbn [mbind option_bind]; [|done].
  rewrite (Error_Error_fuel_mono h (S fuel) (S fuel') e msg ltac:(lia) Hmsg).
  cbn [mbind option_bind].
  destruct (wrappedErr n) as [| s | m0 i | m0 ts | q]; cbn [call_Error]; try done.
  destruct (Error_LogValue fuel h q) as [w|] eqn:Hw; cbn [mbind option_bind];
    [|done].
  by rewrite (IH fuel' q w ltac:(lia) Hw).
Qed.

Ltac chain_tac :=
  repeat first
    [ apply chain_end
    | eapply chain_link; [discriminate | vm_compute; reflexivity | ] ].

(** ** The chain helpers [As] and [HasCode] *)

Lemma HasCode_first_of_type (h : heap) err l T c fuel :
  chain h err l → length l < fuel →
  HasCode fuel h err T c =
    match first_of_type h T l with
    | Some p => n ← h !! p; Some (bool_decide (code n = c))
    | None => Some false
    end.
Proof.
  intros Hc Hlen. unfold HasCode.
  by rewrite (errors_As_chain h T err l fuel Hc Hlen).
Qed.

(** C3.  On a finite chain [l] starting at [err], with enough fuel, the
    helper [As] applies [fn] to the first node of code type [T] and
    returns its result with [true]: the nodes before it, whatever their
    number, are skipped.  When no error of the chain is a node of code
    type [T] it returns no value and [false]. *)
Theorem As_first_node_of_type {V : Type} (h : heap) err l T (fn : addr → V) fuel :
  chain h err l → length l < fuel →
  (∀ l1 p n l2,
     l = l1 ++ ptr p :: l2 → h !! p = Some n → tparam n = T →
     Forall (λ x, has_code_type h T x = false) l1 →
     As fuel h err T fn = Some (Some (fn p), true)) ∧
  (Forall (λ x, has_code_type h T x = false) l →
     As fuel h err T fn = Some (None, false)) ∧
  (∃ r, As fuel h err T fn = Some r).
Proof.
  intros Hc Hlen. unfold As.
  rewrite (errors_As_chain h T err l fuel Hc Hlen). simpl.
  split_and!.
  - intros l1 p n l2 Hl Hn HT Hall.
    assert (first_of_type h T l = Some p) as ->; [|done].
    apply first_of_type_Some. by exists l1, l2, n.
  - intros Hall. apply first_of_type_None in Hall. by rewrite Hall.
  - eauto.
Qed.

(** C1.  [HasCode] compares the given code with the first node of the
    code type only.  In the chain [0 -> 1], both of code type
    [domainErr], node [1] carries the code ["bad_request"], and
    [HasCode] answers [false] for it, whatever the fuel. *)
Theorem HasCode_misses_later_node_of_same_type :
  chain Examples.same_type (ptr 0) [ptr 0; ptr 1] ∧
  code_in_chain Examples.same_type "domainErr" "bad_request" [ptr 0; ptr 1] ∧
  ∀ fuel, 2 < fuel →
    HasCode fuel Examples.same_type (ptr 0) "domainErr" "bad_request" = Some false.
Proof.
  assert (chain Examples.same_type (ptr 0) [ptr 0; ptr 1]) as Hc by chain_tac.
  split_and!; [done| |].
  - exists 1, (mkError "domainErr" "bad_request" err_nil ∅ ∅ None).
    split_and!; [set_solver|done..].
  - intros fuel Hlen.
    by rewrite (HasCode_first_of_type _ _ _ "domainErr" "bad_request" fuel Hc Hlen).
Qed.

Lemma As_first_node_of_type_witness :
  chain Examples.same_type (ptr 0) [ptr 0; ptr 1] ∧ length [ptr 0; ptr 1] < 3 ∧
  (∀ l1 p n l2,
     [ptr 0; ptr 1] = l1 ++ ptr p :: l2 →
     Examples.same_type !! p = Some n → tparam n = "domainErr" →
     Forall (λ x, has_code_type Examples.same_type "domainErr" x = false) l1 →
     As 3 Examples.same_type (ptr 0) "domainErr" (λ zerr : addr, zerr)
       = Some (Some p, true)) ∧
  (Forall (λ x, has_code_type Examples.same_type "domainErr" x = false)
          [ptr 0; ptr 1] →
     As 3 Examples.same_type (ptr 0) "domainErr" (λ zerr : addr, zerr)
       = Some (None, false)) ∧
  (∃ r, As 3 Examples.same_type (ptr 0) "domainErr" (λ zerr : addr, zerr)
          = Some r).
Proof.
  assert (chain Examples.same_type (ptr 0) [ptr 0; ptr 1]) as Hc by chain_tac.
  split; [exact Hc|]. split; [simpl; lia|].
  apply (As_first_node_of_type Examples.same_type (ptr 0) [ptr 0; ptr 1]
           "domainErr" (λ zerr : addr, zerr) 3 Hc).
  simpl; lia.
Defined.

(** ** Message rendering *)

Lemma call_Error_chain {cf : CodeFormat} (h : heap) err l :
  chain h err l → err ≠ err_nil →
  ∃ m, ∀ fuel, length l ≤ fuel → call_Error (Error_Error fuel h) err = Some m.
Proof.
  induction 1 as [|err next l Hne Hnext Hrest IH]; [done|]. intros _.
  destruct err as [| s | msg inner | msg ts | p]; simpl in *; try done; eauto.
  unfold Error_Unwrap in Hnext.
  destruct (h !! p) as [n|] eqn:Hn; simplify_eq/=.
  destruct (is_nil (wrappedErr n)) eqn:Hnil.
  - exists (code n). intros [|fuel] ?; [lia|]. simpl. rewrite Hn. simpl. by rewrite Hnil.
  - destruct IH as [m Hm]; [by intros Hw; rewrite Hw in Hnil|].
    exists (fmt_s (tparam n) (code n) +:+ ": " +:+ m). intros [|fuel] ?; [lia|].
    simpl. rewrite Hn. simpl. rewrite Hnil, Hm by lia. done.
Qed.

(** C2.  [Error()] does not write the code of a node the same way with
    and without a cause: with a cause the code goes through the verb
    [%s] of [fmt], which calls the [String] method of the code type, and
    without a cause it is converted with [string(e.code)], as in
    [CodeString].  For the code type [bracketErr], whose [String] method
    puts the code between [<] and [>], the node with code [A] and the
    plain cause [m] renders as [<A>: m], not as [A: m], and the node
    with code [A] and no cause renders as [A]. *)
Theorem Error_Error_formats_code_only_with_cause :
  (∀ fuel, 0 < fuel →
     Error_Error (cf := bracket_String) fuel Examples.bracketed 0
     = Some "<A>: m") ∧
  (∀ fuel, 0 < fuel →
     Error_Error (cf := bracket_String) fuel Examples.bracketed 1 = Some "A") ∧
  Error_CodeString Examples.bracketed 0 = Some "A" ∧
  Error_CodeString Examples.bracketed 1 = Some "A".
Proof.
  split_and!; try done; by intros [|fuel] ?; [lia|].
Qed.

(** X20.  On a node [e] with a finite chain [l] and enough fuel,
    [Error()] is the string of the code when the node has no cause, and
    otherwise the code as [fmt] writes it under [%s], a colon, a space
    and the message [m] of the cause, where [m] is what the cause's own
    [Error()] returns.  Hence a node wrapping a node [q] that wraps the
    plain message [s] renders as the two codes, each as [fmt] writes it,
    and [s], with [": "] between them; for code types without methods
    that is [code: code_q: s]. *)
Theorem Error_Error_code_then_cause {cf : CodeFormat} (h : heap) e n l fuel :
  h !! e = Some n → chain h (ptr e) l → length l ≤ fuel →
  (wrappedErr n = err_nil → Error_Error fuel h e = Some (code n)) ∧
  (wrappedErr n ≠ err_nil →
     ∃ m, (∀ fuel', length l ≤ S fuel' →
             call_Error (Error_Error fuel' h) (wrappedErr n) = Some m) ∧
          Error_Error fuel h e
          = Some (fmt_s (tparam n) (code n) +:+ ": " +:+ m)) ∧
  (∀ q nq s,
     wrappedErr n = ptr q → h !! q = Some nq → wrappedErr nq = errorString s →
     Error_Error fuel h e
     = Some (fmt_s (tparam n) (code n) +:+ ": "
             +:+ fmt_s (tparam nq) (code nq) +:+ ": " +:+ s) ∧
     ((∀ T c, fmt_s T c = c) →
      Error_Error fuel h e
      = Some (code n +:+ ": " +:+ code nq +:+ ": " +:+ s))).
Proof.
  intros Hn Hc Hlen.
  apply chain_ptr_inv in Hc as (n' & l' & Hn' & -> & Hrest). simplify_eq/=.
  destruct fuel as [|fuel]; [lia|].
  assert (wrappedErr n ≠ err_nil →
    ∃ m, (∀ fuel', length l' ≤ fuel' →
            call_Error (Error_Error fuel' h) (wrappedErr n) = Some m) ∧
         Error_Error (S fuel) h e
         = Some (fmt_s (tparam n) (code n) +:+ ": " +:+ m)) as Hcause.
  { intros Hw. destruct (call_Error_chain h _ _ Hrest Hw) as [m Hm].
    exists m. split; [done|]. simpl. rewrite Hn. simpl.
    rewrite (Hm fuel) by lia. by destruct (wrappedErr n). }
  split_and!.
  - intros Hw. simpl. by rewrite Hn; simpl; rewrite Hw.
  - intros Hw. destruct (Hcause Hw) as (m & Hm & Hr).
    exists m. split; [|done]. intros fuel' ?. apply Hm. lia.
  - intros q nq s Hw Hq Hwq.
    destruct Hcause as (m & Hm & ->); [by rewrite Hw|].
    rewrite Hw in Hrest. apply chain_ptr_inv in Hrest as (? & l'' & ? & -> & _).
    specialize (Hm (S (length l''))). rewrite Hw in Hm. simpl in Hm.
    rewrite Hq in Hm. simpl in Hm. rewrite Hwq in Hm. simpl in Hm.
    specialize (Hm ltac:(lia)). simplify_eq. split; [done|].
    intros Hraw. by rewrite !Hraw.
Qed.

Lemma Error_Error_code_then_cause_witness :
  Examples.a_b_m !! 0 = Some (mkError "codeA" "A" (ptr 1) ∅ ∅ None) ∧
  chain Examples.a_b_m (ptr 0) [ptr 0; ptr 1; errorString "m"] ∧
  length [ptr 0; ptr 1; errorString "m"] ≤ 3 ∧
  Error_Error (cf := no_methods) 3 Examples.a_b_m 0 = Some "A: B: m".
Proof.
  assert (chain Examples.a_b_m (ptr 0) [ptr 0; ptr 1; errorString "m"])
    as Hc by chain_tac.
  split; [reflexivity|]. split; [exact Hc|]. split; [simpl; lia|].
  refine (proj1 (proj2 (proj2 (Error_Error_code_then_cause (cf := no_methods)
            Examples.a_b_m 0
            (mkError "codeA" "A" (ptr 1) ∅ ∅ None) _ 3 _ Hc _))
          1 (mkError "codeB" "B" (errorString "m") ∅ ∅ None) "m" _ _ _));
    first [reflexivity | simpl; lia].
Defined.

(** ** Identity comparison *)

(** C5.  [Is] answers [true] exactly for a target that is an [*Error] of
    the receiver's code type with the receiver's code.  A target of
    another code type is never equal, whatever its code, and the answer
    depends on the code type and code of the two nodes only: their causes
    are not looked at. *)
Theorem Error_Is_same_type_and_code (h : heap) e n target :
  h !! e = Some n →
  (Error_Is h e target = Some true ↔
     ∃ q t, target = ptr q ∧ h !! q = Some t ∧
            tparam t = tparam n ∧ code t = code n) ∧
  (∀ q t, target = ptr q → h !! q = Some t → tparam t ≠ tparam n →
     Error_Is h e target = Some false) ∧
  ((∀ q, target ≠ ptr q) → Error_Is h e target = Some false) ∧
  (∀ q t (h' : heap) n' t',
     target = ptr q → h !! q = Some t →
     h' !! e = Some n' → h' !! q = Some t' →
     tparam n' = tparam n → code n' = code n →
     tparam t' = tparam t → code t' = code t →
     Error_Is h' e target = Error_Is h e target).
Proof.
  intros Hn. unfold Error_Is. rewrite Hn. simpl. split_and!.
  - split.
    + destruct target as [| | | |q]; try done. simpl.
      destruct (h !! q) as [t|] eqn:Ht; [|done]. simpl.
      case_decide; [|done]. intros [= Hb%bool_decide_eq_true_1].
      by exists q, t.
    + intros (q & t & -> & Ht & HT & Hcode). rewrite Ht. simpl.
      rewrite decide_True by done. by rewrite bool_decide_eq_true_2.
  - intros q t -> Ht HT. rewrite Ht. simpl. by rewrite decide_False.
  - intros Hq. destruct target; try done. by destruct (Hq p).
  - intros q t h' n' t' -> Ht Hn' Ht' HT1 Hc1 HT2 Hc2.
    rewrite Hn', Ht', Ht. simpl. by rewrite HT1, Hc1, HT2, Hc2.
Qed.

(** ** Data lookup *)

(** C6.  [Get] reads the data map of the receiver: a key bound there is
    returned with [true], an unbound key gives [nil] and [false].  The
    answer is the same in any store where the receiver has the same data
    map, so nothing else is read; in particular a key bound only in the
    cause is not found through the wrapper. *)
Theorem Error_Get_own_data_only (h : heap) e n key :
  h !! e = Some n →
  (∀ v, data n !! key = Some v → Error_Get h e key = Some (v, true)) ∧
  (data n !! key = None → Error_Get h e key = Some (any_nil, false)) ∧
  (∀ (h' : heap) n',
     h' !! e = Some n' → data n' = data n →
     Error_Get h' e key = Error_Get h e key) ∧
  (∀ q nq v,
     wrappedErr n = ptr q → h !! q = Some nq →
     data nq !! key = Some v → data n !! key = None →
     Error_Get h q key = Some (v, true) ∧
     Error_Get h e key = Some (any_nil, false)).
Proof.
  intros Hn. unfold Error_Get. rewrite Hn. simpl. split_and!.
  - by intros v ->.
  - by intros ->.
  - intros h' n' Hn' Hd. rewrite Hn'. simpl. by rewrite Hd.
  - intros q nq v _ Hq Hv Hk. rewrite Hq. simpl. by rewrite Hv, Hk.
Qed.

(** ** Tags *)

Lemma hashset_Add_union (set : gset string) items :
  hashset.Add set items = set ∪ list_to_set items.
Proof.
  unfold hashset.Add. revert set.
  induction items as [|item items IH]; intros set; simpl.
  - set_solver.
  - rewrite IH. set_solver.
Qed.

Lemma hashset_Add_Values (set other : gset string) :
  hashset.Add set (hashset.Values other) = set ∪ other.
Proof.
  rewrite hashset_Add_union. unfold hashset.Values.
  by rewrite list_to_set_elements_L.
Qed.

(** C10.  [HasTags] without arguments answers [true] on every node,
    whatever its tag set. *)
Theorem Error_HasTags_no_arguments (h : heap) e n :
  h !! e = Some n → Error_HasTags h e [] = Some true.
Proof. intros Hn. unfold Error_HasTags. by rewrite Hn. Qed.

(** C9.  [WithError(nil)] on an allocated node returns: the node loses
    its cause and keeps its tags and everything else, the other nodes are
    untouched, and afterwards [Unwrap] returns [nil] and [Error()] the
    code alone. *)
Theorem Error_WithError_nil {cf : CodeFormat} (h : heap) e n :
  h !! e = Some n →
  ∃ h' n',
    Error_WithError h e err_nil = Some h' ∧
    h' !! e = Some n' ∧
    n' = set_wrappedErr err_nil n ∧ tags n' = tags n ∧
    (∀ q, q ≠ e → h' !! q = h !! q) ∧
    Error_Unwrap h' e = Some err_nil ∧
    (∀ fuel, 0 < fuel → Error_Error fuel h' e = Some (code n)).
Proof.
  intros Hn. unfold Error_WithError. rewrite Hn. simpl.
  eexists _, _. split_and!; [done|by rewrite lookup_insert_eq|done..| | |].
  - intros q Hq. by rewrite lookup_insert_ne.
  - unfold Error_Unwrap. by rewrite lookup_insert_eq.
  - intros [|fuel] ?; [lia|]. simpl. by rewrite lookup_insert_eq.
Qed.

(** C4.  [WithError] with a cause that has a [GetTags] method adds the
    tags the cause has at that moment to the tags of the receiver.  When
    the cause is another node [inner], the tags of the wrapper are the
    union of both tag sets, and a later [Tags] call on [inner] changes
    [inner] and leaves the wrapper as it was. *)
Theorem Error_WithError_tag_snapshot (h : heap) outer inner no ni :
  outer ≠ inner → h !! outer = Some no → h !! inner = Some ni →
  (∀ err ts,
     call_GetTags h err = Some (Some ts) →
     ∃ h1 n1, Error_WithError h outer err = Some h1 ∧
              h1 !! outer = Some n1 ∧ wrappedErr n1 = err ∧
              tags n1 = tags no ∪ list_to_set ts) ∧
  ∃ h1 n1,
    Error_WithError h outer (ptr inner) = Some h1 ∧
    h1 !! outer = Some n1 ∧ h1 !! inner = Some ni ∧
    wrappedErr n1 = ptr inner ∧
    tags n1 = tags no ∪ tags ni ∧
    ∀ ts, ∃ h2 n2,
      Error_Tags h1 inner ts = Some h2 ∧
      h2 !! inner = Some n2 ∧ tags n2 = tags ni ∪ list_to_set ts ∧
      h2 !! outer = Some n1.
Proof.
  intros Hne Hno Hni.
  assert (∀ err ts,
     call_GetTags h err = Some (Some ts) →
     ∃ h1 n1, Error_WithError h outer err = Some h1 ∧
              h1 !! outer = Some n1 ∧ wrappedErr n1 = err ∧
              tags n1 = tags no ∪ list_to_set ts ∧
              ∀ q, q ≠ outer → h1 !! q = h !! q) as Hgen.
  { intros err ts Hts. unfold Error_WithError. rewrite Hno. simpl.
    assert (call_GetTags (<[outer:=set_wrappedErr err no]> h) err
            = Some (Some ts)) as ->.
    { destruct err as [| | | |q]; simpl in *; try done.
      unfold Error_GetTags in *.
      destruct (decide (q = outer)) as [->|Hq].
      - rewrite lookup_insert_eq. by rewrite Hno in Hts.
      - by rewrite lookup_insert_ne. }
    simpl. rewrite lookup_insert_eq. simpl.
    eexists _, _. split_and!; [done|by rewrite lookup_insert_eq|done| |].
    - simpl. apply hashset_Add_union.
    - intros q Hq. by rewrite !lookup_insert_ne. }
  split.
  - intros err ts Hts. destruct (Hgen err ts Hts) as (h1 & n1 & ? & ? & ? & ? & _).
    by exists h1, n1.
  - destruct (Hgen (ptr inner) (hashset.Values (tags ni)))
      as (h1 & n1 & Hw & Hn1 & Hcause & Htags & Hother).
    { simpl. unfold Error_GetTags. by rewrite Hni. }
    assert (h1 !! inner = Some ni) as Hi by (by rewrite Hother).
    exists h1, n1. split_and!; try done.
    + rewrite Htags. unfold hashset.Values. by rewrite list_to_set_elements_L.
    + intros ts. unfold Error_Tags. rewrite Hi. simpl.
      eexists _, _. split_and!; [done|by rewrite lookup_insert_eq| |].
      * simpl. apply hashset_Add_union.
      * by rewrite lookup_insert_ne.
Qed.

(** ** Monotonicity of tags *)

Section Monotone.

Variable fmt_Errorf : string → list any → error.

Lemma exec_tags_mono {cf : CodeFormat} fuel (h h' : heap) o r q n :
  exec fmt_Errorf fuel h o = Some (h', r) → h !! q = Some n →
  ∃ n', h' !! q = Some n' ∧ tags n ⊆ tags n'.
Proof.
  intros Hexec Hq.
  assert (∀ e m m',
    h !! e = Some m → tags m ⊆ tags m' →
    ∃ n', <[e:=m']> h !! q = Some n' ∧ tags n ⊆ tags n') as Hupd.
  { intros e m m' Hm Hsub. destruct (decide (q = e)) as [->|Hne].
    - rewrite lookup_insert_eq. simplify_eq. eauto.
    - rewrite lookup_insert_ne by done. eauto. }
  destruct o; simpl in Hexec;
    try (simplify_option_eq; by eauto);
    try (destruct (Error_Get h e key) as [[??]|]; simplify_eq/=; by eauto);
    try (destruct (As fuel h err T id) as [[??]|]; simplify_eq/=; by eauto).
  - (* New *)
    simplify_eq. exists n. split; [|done].
    rewrite lookup_insert_ne; [done|].
    intros Heq. apply (is_fresh (dom h)). rewrite Heq.
    apply elem_of_dom. eauto.
  - (* Tags *)
    unfold Error_Tags in Hexec.
    destruct (h !! e) as [m|] eqn:Hm; simplify_eq/=.
    apply (Hupd e m); [done|]. simpl. rewrite hashset_Add_union. set_solver.
  - (* With *)
    unfold Error_With in Hexec.
    destruct (h !! e) as [m|] eqn:Hm; simplify_eq/=.
    by apply (Hupd e m).
  - (* WithError *)
    unfold Error_WithError in Hexec.
    destruct (h !! e) as [m|] eqn:Hm; simplify_eq/=.
    destruct (call_GetTags _ err) as [[ts|]|]; simplify_eq/=.
    + rewrite lookup_insert_eq in Hexec. simplify_eq/=.
      rewrite insert_insert_eq.
      apply (Hupd e m); [done|]. simpl. rewrite hashset_Add_union. set_solver.
    + by apply (Hupd e m).
  - (* Errorf *)
    unfold Error_Errorf in Hexec.
    destruct (h !! e) as [m|] eqn:Hm; simplify_eq/=.
    by apply (Hupd e m).
Qed.

(** C8.  Through any sequence of calls of the interface ([New], the
    builders [Tags], [With], [WithError] and [Errorf], and the queries)
    that runs to its end, every node allocated before is still
    allocated after and has all the tags it had: a call adds tags or
    leaves the tag set as it is. *)
Theorem tags_never_shrink {cf : CodeFormat} fuel (os : list op) (h h' : heap) q n :
  run fmt_Errorf fuel h os = Some h' → h !! q = Some n →
  ∃ n', h' !! q = Some n' ∧ tags n ⊆ tags n'.
Proof.
  revert h n. induction os as [|o os IH]; intros h n Hrun Hq; simpl in Hrun.
  - simplify_eq. eauto.
  - destruct (exec fmt_Errorf fuel h o) as [[h1 r]|] eqn:Hexec; [|done].
    simpl in Hrun.
    destruct (exec_tags_mono _ _ _ _ _ _ _ Hexec Hq) as (n1 & Hq1 & Hsub1).
    destruct (IH _ _ Hrun Hq1) as (n' & Hq' & Hsub').
    exists n'. split; [done|]. set_solver.
Qed.

End Monotone.

(** ** The log projection *)

Lemma Error_LogValue_unfold {cf : CodeFormat} fuel (h : heap) e n :
  h !! e = Some n →
  Error_LogValue (S fuel) h e =
    msg ← Error_Error (S fuel) h e;
    wrapped ← LogValue_wrapped fuel h n;
    Some (slog.GroupValue (LogValue_attrs n msg wrapped)).
Proof.
  intros Hn. cbn [Error_LogValue]. rewrite Hn. cbn [mbind option_bind].
  destruct (Error_Error (S fuel) h e) as [msg|]; [|done]. cbn [mbind option_bind].
  unfold LogValue_attrs, LogValue_wrapped, hashset.Empty.
  assert (bool_decide (0 < size (data n)) = negb (bool_decide (data n = ∅)))
    as ->.
  { rewrite <- (bool_decide_ext _ _ (map_size_empty_iff (data n))).
    destruct (size (data n)); by repeat case_bool_decide; try lia. }
  assert (bool_decide (size (tags n) = 0) = bool_decide (tags n = ∅)) as ->.
  { apply bool_decide_ext. rewrite size_empty_iff. by unfold_leibniz. }
  destruct (bool_decide (data n = ∅)), (bool_decide (tags n = ∅));
    cbn [negb];
    (destruct (wrappedErr n) as [| s | m0 i | m0 ts | q]; cbn [mbind option_bind call_Error];
     [ | | | |destruct (Error_LogValue fuel h q); cbn [mbind option_bind]];
     try done; by destruct (stack n)).
Qed.

Lemma GroupValue_no_empty_group (attrs : list (string * slog.Value)) :
  Forall (λ a, slog.isEmptyGroup a.2 = false) attrs →
  slog.GroupValue attrs = slog.KindGroup attrs.
Proof.
  intros Hall. unfold slog.GroupValue. f_equal.
  induction Hall as [|a attrs Ha _ IH]; [done|].
  rewrite filter_cons_True by done. by rewrite IH.
Qed.

Lemma data_attrs_elem (n : Error) k x :
  (k, x) ∈ data_attrs n ↔
  ∃ a, data n !! k = Some a ∧ x = slog.AnyValue a ∧ slog.isEmptyGroup x = false.
Proof.
  unfold data_attrs. rewrite list_elem_of_filter, list_elem_of_fmap. simpl.
  split.
  - intros (Hne & [k' a] & [= -> ->] & Hin%elem_of_map_to_list). eauto.
  - intros (a & Ha & -> & Hne). split; [done|].
    exists (k, a). split; [done|]. by apply elem_of_map_to_list.
Qed.

Lemma data_attrs_not_nil (n : Error) :
  (∃ k a, data n !! k = Some a ∧ slog.isEmptyGroup (slog.AnyValue a) = false)
  ↔ data_attrs n ≠ [].
Proof.
  split.
  - intros (k & a & Ha & Hne) Hnil.
    assert ((k, slog.AnyValue a) ∈ data_attrs n) as Hin
      by (apply data_attrs_elem; eauto).
    rewrite Hnil in Hin. by apply not_elem_of_nil in Hin.
  - destruct (data_attrs n) as [|[k x] l] eqn:Hd; [done|]. intros _.
    assert ((k, x) ∈ data_attrs n) as Hin by (rewrite Hd; left).
    apply data_attrs_elem in Hin as (a & Ha & -> & Hne). eauto.
Qed.

Lemma data_attrs_NoDup (n : Error) : NoDup (data_attrs n).*1.
Proof.
  unfold data_attrs.
  eapply sublist_NoDup; [|apply fmap_sublist, sublist_filter].
  rewrite <- list_fmap_compose.
  rewrite (list_fmap_ext _ fst (map_to_list (data n))) by done.
  apply NoDup_fst_map_to_list.
Qed.

Lemma data_attrs_empty (n : Error) : data n = ∅ → data_attrs n = [].
Proof. intros Hd. unfold data_attrs. by rewrite Hd, map_to_list_empty. Qed.

(** What [slog.GroupValue] keeps of the attributes of [LogValue]. *)
Lemma GroupValue_LogValue_attrs (n : Error) msg wrapped :
  Forall (λ a, slog.isEmptyGroup a.2 = false) wrapped →
  slog.GroupValue (LogValue_attrs n msg wrapped)
  = slog.KindGroup (LogValue_shown n msg wrapped).
Proof.
  intros Hw. unfold slog.GroupValue, LogValue_attrs, LogValue_shown. f_equal.
  set (P := λ a : string * Value, slog.isEmptyGroup a.2 = false).
  assert (filter P (if bool_decide (data n = ∅) then []
                    else [slog.Group "data" (map_to_list (data n))])
          = match data_attrs n with
            | [] => []
            | _ => [("data", slog.KindGroup (data_attrs n))]
            end) as Hdata.
  { case_bool_decide as Hd.
    - by rewrite (data_attrs_empty n Hd).
    - unfold slog.Group, slog.GroupValue. fold (data_attrs n).
      by destruct (data_attrs n). }
  assert (filter P (if bool_decide (tags n = ∅) then []
                    else [slog.Any "tags" (any_strings (hashset.Values (tags n)))])
          = (if bool_decide (tags n = ∅) then []
             else [slog.Any "tags" (any_strings (hashset.Values (tags n)))]))
    as Htags by (destruct (bool_decide (tags n = ∅)); reflexivity).
  assert (filter P wrapped = wrapped) as Hwrapped.
  { induction Hw as [|a attrs Ha _ IH]; [done|].
    rewrite filter_cons_True by done. by rewrite IH. }
  assert (filter P match stack n with
                   | Some s => [slog.String "stack" (Stack.String s)]
                   | None => []
                   end
          = match stack n with
            | Some s => [slog.String "stack" (Stack.String s)]
            | None => []
            end) as Hstack by (destruct (stack n); reflexivity).
  by rewrite !filter_app, Hdata, Htags, Hwrapped, Hstack.
Qed.

Lemma Error_LogValue_chain {cf : CodeFormat} (h : heap) l :
  ∀ e fuel, chain h (ptr e) l → length l ≤ fuel →
  ∃ n msg wrapped,
    h !! e = Some n ∧
    Error_Error fuel h e = Some msg ∧
    LogValue_wrapped (pred fuel) h n = Some wrapped ∧
    Forall (λ a, slog.isEmptyGroup a.2 = false) wrapped ∧
    Error_LogValue fuel h e = Some (slog.KindGroup (LogValue_shown n msg wrapped)).
Proof.
  induction l as [|x l IH]; intros e fuel Hc Hlen;
    pose proof Hc as Hc0;
    apply chain_ptr_inv in Hc as (n & l' & Hn & Heq & Hrest); simplify_eq/=.
  destruct fuel as [|fuel]; [lia|].
  destruct (call_Error_chain h _ _ Hc0) as [msg Hmsg]; [done|].
  specialize (Hmsg (S fuel) ltac:(simpl; lia)). cbn [call_Error] in Hmsg.
  assert (∃ wrapped,
    LogValue_wrapped fuel h n = Some wrapped ∧
    Forall (λ a, slog.isEmptyGroup a.2 = false) wrapped) as (wr & Hwr & Hne).
  { unfold LogValue_wrapped.
    destruct (wrappedErr n) as [| s | m0 i | m0 ts | q] eqn:Hw; simpl;
      try (eexists; split; [done|]; by repeat constructor).
    destruct (IH q fuel Hrest) as (nq & mq & wq & _ & _ & _ & Hwq & ->); [lia|].
    simpl. eexists; split; [done|]. by repeat constructor. }
  exists n, msg, wr. split_and!; try done.
  rewrite (Error_LogValue_unfold _ _ _ _ Hn), Hmsg. simpl. rewrite Hwr. simpl.
  by rewrite GroupValue_LogValue_attrs.
Qed.




(** ** The theorems at the stores of the tests *)

(** The builder calls of [Test_ErrorCreation] produce [wrapped_pair]. *)
Example creation_builds_wrapped_pair :
  Examples.creation = Some Examples.wrapped_pair.
Proof. vm_compute. reflexivity. Qed.

(** [Test_ErrorCreation]: both codes of the chain are found, each under
    its own code type. *)
Example HasCode_wrapped_pair :
  HasCode 4 Examples.wrapped_pair (ptr 0) "domainErr" "not_found" = Some true ∧
  HasCode 4 Examples.wrapped_pair (ptr 0) "dbErr" "zero_rows" = Some true ∧
  HasCode 4 Examples.wrapped_pair (ptr 0) "dbErr" "other" = Some false ∧
  HasCode 4 Examples.wrapped_pair (ptr 0) "otherErr" "not_found" = Some false.
Proof. by vm_compute. Qed.

Lemma Error_Is_same_type_and_code_witness :
  Examples.same_text !! 0 = Some (mkError "domainErr" "not_found" err_nil ∅ ∅ None) ∧
  Error_Is Examples.same_text 0 (ptr 1) = Some false.
Proof.
  split; [reflexivity|].
  refine (proj1 (proj2 (Error_Is_same_type_and_code Examples.same_text 0
            (mkError "domainErr" "not_found" err_nil ∅ ∅ None) (ptr 1) _))
          1 (mkError "dbErr" "not_found" err_nil ∅ ∅ None) _ _ _);
    first [reflexivity | discriminate].
Defined.

Lemma Error_Get_own_data_only_witness :
  Examples.wrapped_pair !! 0
    = Some (mkError "domainErr" "not_found" (ptr 1) ∅
              {[ "user_id" := any_int 123; "trace" := any_string "1234" ]} None) ∧
  Error_Get Examples.wrapped_pair 1 "req_id" = Some (any_int 10, true) ∧
  Error_Get Examples.wrapped_pair 0 "req_id" = Some (any_nil, false).
Proof.
  split; [reflexivity|].
  refine (proj2 (proj2 (proj2 (Error_Get_own_data_only Examples.wrapped_pair 0
            (mkError "domainErr" "not_found" (ptr 1) ∅
               {[ "user_id" := any_int 123; "trace" := any_string "1234" ]} None)
            "req_id" _)))
          1 (mkError "dbErr" "zero_rows" (errorString "db returned no rows") ∅
               {[ "req_id" := any_int 10 ]} None)
          (any_int 10) _ _ _ _);
    reflexivity.
Defined.

Lemma Error_HasTags_no_arguments_witness :
  (New ∅ "domainErr" "not_found" None).1 !! 0
    = Some (mkError "domainErr" "not_found" err_nil ∅ ∅ None) ∧
  Error_HasTags (New ∅ "domainErr" "not_found" None).1 0 [] = Some true.
Proof.
  split; [reflexivity|].
  apply (Error_HasTags_no_arguments _ 0
           (mkError "domainErr" "not_found" err_nil ∅ ∅ None)).
  reflexivity.
Defined.

Lemma Error_WithError_nil_witness :
  Examples.a_b_m !! 0 = Some (mkError "codeA" "A" (ptr 1) ∅ ∅ None) ∧
  ∃ h' n',
    Error_WithError Examples.a_b_m 0 err_nil = Some h' ∧
    h' !! 0 = Some n' ∧
    n' = set_wrappedErr err_nil (mkError "codeA" "A" (ptr 1) ∅ ∅ None) ∧
    tags n' = ∅ ∧
    (∀ q, q ≠ 0 → h' !! q = Examples.a_b_m !! q) ∧
    Error_Unwrap h' 0 = Some err_nil ∧
    (∀ fuel, 0 < fuel → Error_Error (cf := no_methods) fuel h' 0 = Some "A").
Proof.
  split; [reflexivity|].
  apply (Error_WithError_nil (cf := no_methods) Examples.a_b_m 0
           (mkError "codeA" "A" (ptr 1) ∅ ∅ None)).
  reflexivity.
Defined.

Lemma Error_WithError_tag_snapshot_witness :
  0 ≠ 1 ∧
  Examples.tagged !! 0
    = Some (mkError "domainErr" "not_found" err_nil {[ "iam"; "authz" ]} ∅ None) ∧
  Examples.tagged !! 1
    = Some (mkError "anotherErr" "unauthorized" err_nil {[ "permission" ]} ∅ None) ∧
  ∃ h1 n1,
    Error_WithError Examples.tagged 0 (ptr 1) = Some h1 ∧
    h1 !! 0 = Some n1 ∧
    tags n1 = {[ "iam"; "authz"; "permission" ]} ∧
    ∀ ts, ∃ h2 n2,
      Error_Tags h1 1 ts = Some h2 ∧
      h2 !! 1 = Some n2 ∧ tags n2 = {[ "permission" ]} ∪ list_to_set ts ∧
      h2 !! 0 = Some n1.
Proof.
  split; [discriminate|]. split; [reflexivity|]. split; [reflexivity|].
  destruct (Error_WithError_tag_snapshot Examples.tagged 0 1
              (mkError "domainErr" "not_found" err_nil {[ "iam"; "authz" ]} ∅ None)
              (mkError "anotherErr" "unauthorized" err_nil {[ "permission" ]} ∅ None)
              ltac:(discriminate) eq_refl eq_refl)
    as [_ (h1 & n1 & Hw & Hn1 & _ & _ & Htags & Hlater)].
  exists h1, n1. split; [exact Hw|]. split; [exact Hn1|].
  split; [|exact Hlater].
  rewrite Htags. simpl. apply set_eq. intros x.
  rewrite !elem_of_union, !elem_of_singleton. tauto.
Defined.

Lemma tags_never_shrink_witness :
  ∃ h',
    run (cf := no_methods) plain_Errorf 3 Examples.tagged
      [OpWithError 0 (ptr 1); OpTags 1 ["late"]; OpErrorf 0 "boom" [];
       OpWith 0 "k" any_nil; OpGetTags 0] = Some h' ∧
    Examples.tagged !! 0
      = Some (mkError "domainErr" "not_found" err_nil {[ "iam"; "authz" ]} ∅ None) ∧
    ∃ n', h' !! 0 = Some n' ∧ {[ "iam"; "authz" ]} ⊆ tags n'.
Proof.
  destruct (run (cf := no_methods) plain_Errorf 3 Examples.tagged
              [OpWithError 0 (ptr 1); OpTags 1 ["late"]; OpErrorf 0 "boom" [];
               OpWith 0 "k" any_nil; OpGetTags 0]) as [h'|] eqn:Hrun;
    [|vm_compute in Hrun; discriminate].
  exists h'. split; [reflexivity|]. split; [reflexivity|].
  exact (tags_never_shrink (cf := no_methods) plain_Errorf 3 _ Examples.tagged h' 0
           (mkError "domainErr" "not_found" err_nil {[ "iam"; "authz" ]} ∅ None)
           Hrun eq_refl).
Defined.


(** ** Data: [With] and [Get] *)

(** X1.  [With(k, v)] on an allocated node returns; afterwards [Get(k)]
    finds [v], every other key answers as before, the other nodes are the
    same, and a second [With] on the same key replaces the value: the
    store is the one a single [With] of the last value gives. *)
Theorem Error_With_then_Get (h : heap) e n k v :
  h !! e = Some n →
  ∃ h',
    Error_With h e k v = Some h' ∧
    Error_Get h' e k = Some (v, true) ∧
    (∀ k', k' ≠ k → Error_Get h' e k' = Error_Get h e k') ∧
    (∀ q, q ≠ e → h' !! q = h !! q) ∧
    (∀ v2, Error_With h' e k v2 = Error_With h e k v2).
Proof.
  intros Hn. unfold Error_With at 1. rewrite Hn. simpl.
  eexists. split; [done|]. split_and!.
  - unfold Error_Get. rewrite lookup_insert_eq. simpl.
    by rewrite lookup_insert_eq.
  - intros k' Hk. unfold Error_Get. rewrite lookup_insert_eq, Hn. simpl.
    by rewrite lookup_insert_ne.
  - intros q Hq. by rewrite lookup_insert_ne.
  - intros v2. unfold Error_With. rewrite lookup_insert_eq, Hn. simpl.
    rewrite insert_insert_eq. unfold set_data. simpl.
    by rewrite insert_insert_eq.
Qed.

Lemma Error_With_then_Get_witness :
  Examples.wrapped_pair !! 1
    = Some (mkError "dbErr" "zero_rows" (errorString "db returned no rows") ∅
              {[ "req_id" := any_int 10 ]} None) ∧
  ∃ h',
    Error_With Examples.wrapped_pair 1 "req_id" (any_int 11) = Some h' ∧
    Error_Get h' 1 "req_id" = Some (any_int 11, true) ∧
    (∀ k', k' ≠ "req_id" →
       Error_Get h' 1 k' = Error_Get Examples.wrapped_pair 1 k') ∧
    (∀ q, q ≠ 1 → h' !! q = Examples.wrapped_pair !! q) ∧
    (∀ v2, Error_With h' 1 "req_id" v2
           = Error_With Examples.wrapped_pair 1 "req_id" v2).
Proof.
  split; [reflexivity|].
  apply (Error_With_then_Get Examples.wrapped_pair 1
           (mkError "dbErr" "zero_rows" (errorString "db returned no rows") ∅
              {[ "req_id" := any_int 10 ]} None)).
  reflexivity.
Defined.

(** ** Tags: [Tags], [HasTags] and [GetTags] *)

Lemma hashset_Contains_true (set : gset string) items :
  hashset.Contains set items = true ↔ ∀ x, x ∈ items → x ∈ set.
Proof.
  unfold hashset.Contains. rewrite forallb_forall. split.
  - intros Hall x Hx. apply list_elem_of_In in Hx.
    by apply Hall, bool_decide_eq_true_1 in Hx.
  - intros Hall x Hx. apply bool_decide_eq_true_2, Hall.
    by apply list_elem_of_In.
Qed.

(** X2.  [HasTags] answers [true] exactly when every given tag is in the
    tag set of the node.  After [Tags(ts)] these are the tags the node
    had before together with those of [ts]; in particular [HasTags(ts)]
    is [true], and so is every question that was [true] before. *)
Theorem Error_Tags_then_HasTags (h : heap) e n ts :
  h !! e = Some n →
  (∀ qs, Error_HasTags h e qs = Some true ↔ ∀ x, x ∈ qs → x ∈ tags n) ∧
  ∃ h',
    Error_Tags h e ts = Some h' ∧
    Error_HasTags h' e ts = Some true ∧
    (∀ qs, Error_HasTags h' e qs = Some true ↔
           ∀ x, x ∈ qs → x ∈ tags n ∨ x ∈ ts) ∧
    (∀ q, q ≠ e → h' !! q = h !! q).
Proof.
  intros Hn.
  assert (∀ (h0 : heap) n0 qs, h0 !! e = Some n0 →
    (Error_HasTags h0 e qs = Some true ↔ ∀ x, x ∈ qs → x ∈ tags n0)) as Hhas.
  { intros h0 n0 qs H0. unfold Error_HasTags. rewrite H0. simpl.
    rewrite <- hashset_Contains_true. split; [by intros [= ->]|by intros ->]. }
  split; [intros qs; by apply Hhas|].
  unfold Error_Tags. rewrite Hn. simpl. eexists. split; [done|].
  assert (∀ qs,
    Error_HasTags (<[e:=set_tags (hashset.Add (tags n) ts) n]> h) e qs = Some true
    ↔ ∀ x, x ∈ qs → x ∈ tags n ∨ x ∈ ts) as Hafter.
  { intros qs. rewrite (Hhas _ (set_tags (hashset.Add (tags n) ts) n))
      by by rewrite lookup_insert_eq.
    simpl. rewrite hashset_Add_union. set_solver. }
  split_and!; [|done|].
  - apply Hafter. auto.
  - intros q Hq. by rewrite lookup_insert_ne.
Qed.

Lemma Error_Tags_then_HasTags_witness :
  Examples.tagged !! 0
    = Some (mkError "domainErr" "not_found" err_nil {[ "iam"; "authz" ]} ∅ None) ∧
  ∃ h',
    Error_Tags Examples.tagged 0 ["late"; "iam"] = Some h' ∧
    Error_HasTags h' 0 ["late"; "iam"] = Some true ∧
    (∀ qs, Error_HasTags h' 0 qs = Some true ↔
           ∀ x, x ∈ qs → x ∈ ({[ "iam"; "authz" ]} : gset string)
                         ∨ x ∈ ["late"; "iam"]) ∧
    (∀ q, q ≠ 0 → h' !! q = Examples.tagged !! q).
Proof.
  split; [reflexivity|].
  apply (proj2 (Error_Tags_then_HasTags Examples.tagged 0
           (mkError "domainErr" "not_found" err_nil {[ "iam"; "authz" ]} ∅ None)
           ["late"; "iam"] eq_refl)).
Defined.

(** X3.  [GetTags] lists every tag of the node exactly once, however
    often it was added: after [Tags(ts)] the list has no duplicates and
    holds the earlier tags and those of [ts], and [HasTags(qs)] is [true]
    exactly when every tag of [qs] is in the list. *)
Theorem Error_GetTags_each_tag_once (h h' : heap) e n ts :
  h !! e = Some n → Error_Tags h e ts = Some h' →
  ∃ l,
    Error_GetTags h' e = Some l ∧
    NoDup l ∧
    (∀ x, x ∈ l ↔ x ∈ tags n ∨ x ∈ ts) ∧
    length l = size (tags n ∪ list_to_set ts) ∧
    (∀ qs, Error_HasTags h' e qs = Some true ↔ ∀ x, x ∈ qs → x ∈ l).
Proof.
  intros Hn. unfold Error_Tags. rewrite Hn. simpl. intros [= <-].
  unfold Error_GetTags, Error_HasTags. rewrite lookup_insert_eq. simpl.
  rewrite hashset_Add_union. unfold hashset.Values.
  eexists. split; [done|]. split_and!.
  - apply NoDup_elements.
  - intros x. rewrite elem_of_elements. set_solver.
  - done.
  - intros qs. split.
    + intros [= Hc]. pose proof (proj1 (hashset_Contains_true _ _) Hc) as Hall.
      intros x Hx. apply elem_of_elements. auto.
    + intros Hall. f_equal. apply hashset_Contains_true.
      intros x Hx. apply elem_of_elements. auto.
Qed.

Lemma Error_GetTags_each_tag_once_witness :
  Examples.tagged !! 1
    = Some (mkError "anotherErr" "unauthorized" err_nil {[ "permission" ]} ∅ None) ∧
  ∃ h',
    Error_Tags Examples.tagged 1 ["x"; "permission"; "x"] = Some h' ∧
    ∃ l,
      Error_GetTags h' 1 = Some l ∧
      NoDup l ∧
      (∀ x, x ∈ l ↔ x ∈ ({[ "permission" ]} : gset string)
                    ∨ x ∈ ["x"; "permission"; "x"]) ∧
      length l = 2.
Proof.
  split; [reflexivity|].
  destruct (Error_Tags Examples.tagged 1 ["x"; "permission"; "x"])
    as [h'|] eqn:Htags; [|vm_compute in Htags; discriminate].
  exists h'. split; [reflexivity|].
  destruct (Error_GetTags_each_tag_once Examples.tagged h' 1
              (mkError "anotherErr" "unauthorized" err_nil {[ "permission" ]} ∅ None)
              ["x"; "permission"; "x"] eq_refl Htags)
    as (l & Hl & Hnd & Hin & Hlen & _).
  exists l. split; [exact Hl|]. split; [exact Hnd|]. split; [exact Hin|].
  rewrite Hlen. vm_compute. reflexivity.
Defined.

(** ** What no call changes *)

Lemma extends_refl (n : Error) : extends n n.
Proof. by unfold extends. Qed.

Lemma extends_trans (n1 n2 n3 : Error) :
  extends n1 n2 → extends n2 n3 → extends n1 n3.
Proof.
  unfold extends. intros (?&?&?&?&?) (?&?&?&?&?).
  split_and!; try congruence; set_solver.
Qed.

Section Keeps.

Variable fmt_Errorf : string → list any → error.

Lemma exec_extends {cf : CodeFormat} fuel (h h' : heap) o r q n :
  exec fmt_Errorf fuel h o = Some (h', r) → h !! q = Some n →
  ∃ n', h' !! q = Some n' ∧ extends n n'.
Proof.
  intros Hexec Hq.
  assert (∀ e m m',
    h !! e = Some m → extends m m' →
    ∃ n', <[e:=m']> h !! q = Some n' ∧ extends n n') as Hupd.
  { intros e m m' Hm Hext. destruct (decide (q = e)) as [->|Hne].
    - rewrite lookup_insert_eq. simplify_eq. eauto.
    - rewrite lookup_insert_ne by done. eauto using extends_refl. }
  destruct o; simpl in Hexec;
    try (simplify_option_eq; by eauto using extends_refl);
    try (destruct (Error_Get h e key) as [[??]|]; simplify_eq/=;
         by eauto using extends_refl);
    try (destruct (As fuel h err T id) as [[??]|]; simplify_eq/=;
         by eauto using extends_refl).
  - simplify_eq. exists n. split; [|apply extends_refl].
    rewrite lookup_insert_ne; [done|].
    intros Heq. apply (is_fresh (dom h)). rewrite Heq.
    apply elem_of_dom. eauto.
  - unfold Error_Tags in Hexec.
    destruct (h !! e) as [m|] eqn:Hm; simplify_eq/=.
    apply (Hupd e m); [done|]. unfold extends. simpl.
    rewrite hashset_Add_union. split_and!; try done; set_solver.
  - unfold Error_With in Hexec.
    destruct (h !! e) as [m|] eqn:Hm; simplify_eq/=.
    apply (Hupd e m); [done|]. unfold extends. simpl.
    split_and!; try done. rewrite dom_insert_L. set_solver.
  - unfold Error_WithError in Hexec.
    destruct (h !! e) as [m|] eqn:Hm; simplify_eq/=.
    destruct (call_GetTags _ err) as [[ts|]|]; simplify_eq/=.
    + rewrite lookup_insert_eq in Hexec. simplify_eq/=.
      rewrite insert_insert_eq.
      apply (Hupd e m); [done|]. unfold extends. simpl.
      rewrite hashset_Add_union. split_and!; try done; set_solver.
    + apply (Hupd e m); [done|]. by unfold extends.
  - unfold Error_Errorf in Hexec.
    destruct (h !! e) as [m|] eqn:Hm; simplify_eq/=.
    apply (Hupd e m); [done|]. by unfold extends.
Qed.

Lemma run_extends {cf : CodeFormat} fuel (os : list op) :
  ∀ (h h' : heap) q n,
    run fmt_Errorf fuel h os = Some h' → h !! q = Some n →
    ∃ n', h' !! q = Some n' ∧ extends n n'.
Proof.
  induction os as [|o os IH]; intros h h' q n Hrun Hq; simpl in Hrun.
  - simplify_eq. eauto using extends_refl.
  - destruct (exec fmt_Errorf fuel h o) as [[h1 r]|] eqn:Hexec; [|done].
    simpl in Hrun.
    destruct (exec_extends _ _ _ _ _ _ _ Hexec Hq) as (n1 & Hq1 & Hext1).
    destruct (IH _ _ _ _ Hrun Hq1) as (n' & Hq' & Hext').
    eauto using extends_trans.
Qed.

(** X4.  No sequence of calls changes the code, the code type or the
    snapshot of an existing node: [Code] and [CodeString] answer as
    before, and so does [Is] between two nodes that both existed. *)
Theorem code_type_stack_never_change {cf : CodeFormat} fuel (os : list op) (h h' : heap) e n :
  run fmt_Errorf fuel h os = Some h' → h !! e = Some n →
  (∃ n', h' !! e = Some n' ∧
         tparam n' = tparam n ∧ code n' = code n ∧ stack n' = stack n) ∧
  Error_Code h' e = Some (code n) ∧
  Error_CodeString h' e = Some (code n) ∧
  (∀ q nq, h !! q = Some nq → Error_Is h' e (ptr q) = Error_Is h e (ptr q)).
Proof.
  intros Hrun He.
  destruct (run_extends _ _ _ _ _ _ Hrun He) as (n' & He' & HT & Hc & Hs & _).
  split_and!.
  - by exists n'.
  - unfold Error_Code. rewrite He'. simpl. by rewrite Hc.
  - unfold Error_CodeString. rewrite He'. simpl. by rewrite Hc.
  - intros q nq Hq.
    destruct (run_extends _ _ _ _ _ _ Hrun Hq) as (nq' & Hq' & HTq & Hcq & _).
    unfold Error_Is. rewrite He, He', Hq, Hq'. simpl.
    by rewrite HT, Hc, HTq, Hcq.
Qed.

(** X5.  A [true] answer of [HasTags] is never taken back: it stays
    [true] after any sequence of calls. *)
Theorem HasTags_true_stays_true {cf : CodeFormat} fuel (os : list op) (h h' : heap) e qs :
  run fmt_Errorf fuel h os = Some h' →
  Error_HasTags h e qs = Some true → Error_HasTags h' e qs = Some true.
Proof.
  intros Hrun. unfold Error_HasTags.
  destruct (h !! e) as [n|] eqn:He; [|done]. simpl. intros [= Hc].
  destruct (run_extends _ _ _ _ _ _ Hrun He) as (n' & -> & _ & _ & _ & Hsub & _).
  simpl. f_equal. apply hashset_Contains_true.
  pose proof (proj1 (hashset_Contains_true _ _) Hc). set_solver.
Qed.

(** X6.  A key that [Get] finds is found after any sequence of calls:
    [With] can replace its value, and nothing removes it. *)
Theorem Get_found_stays_found {cf : CodeFormat} fuel (os : list op) (h h' : heap) e k v :
  run fmt_Errorf fuel h os = Some h' →
  Error_Get h e k = Some (v, true) →
  ∃ v', Error_Get h' e k = Some (v', true).
Proof.
  intros Hrun. unfold Error_Get.
  destruct (h !! e) as [n|] eqn:He; [|done]. simpl.
  destruct (data n !! k) as [x|] eqn:Hk; [|done]. intros _.
  destruct (run_extends _ _ _ _ _ _ Hrun He) as (n' & -> & _ & _ & _ & _ & Hsub).
  simpl. assert (k ∈ dom (data n')) as [x' ->]%elem_of_dom; [|by eauto].
  apply Hsub, elem_of_dom. eauto.
Qed.

End Keeps.

Lemma code_type_stack_never_change_witness :
  ∃ h',
    run (cf := no_methods) plain_Errorf 4 Examples.wrapped_pair
      [OpWith 0 "user_id" (any_int 7); OpTags 1 ["db"]; OpWithError 0 (ptr 1);
       OpErrorf 1 "timeout" []; OpError 0] = Some h' ∧
    Examples.wrapped_pair !! 0
      = Some (mkError "domainErr" "not_found" (ptr 1) ∅
                {[ "user_id" := any_int 123; "trace" := any_string "1234" ]} None) ∧
    Error_Code h' 0 = Some "not_found" ∧
    Error_CodeString h' 0 = Some "not_found".
Proof.
  destruct (run (cf := no_methods) plain_Errorf 4 Examples.wrapped_pair
      [OpWith 0 "user_id" (any_int 7); OpTags 1 ["db"]; OpWithError 0 (ptr 1);
       OpErrorf 1 "timeout" []; OpError 0]) as [h'|] eqn:Hrun;
    [|vm_compute in Hrun; discriminate].
  exists h'. split; [reflexivity|]. split; [reflexivity|].
  destruct (code_type_stack_never_change (cf := no_methods) plain_Errorf 4 _ Examples.wrapped_pair h' 0
              (mkError "domainErr" "not_found" (ptr 1) ∅
                 {[ "user_id" := any_int 123; "trace" := any_string "1234" ]} None)
              Hrun eq_refl) as (_ & Hcode & Hstr & _).
  split; [exact Hcode|exact Hstr].
Defined.

Lemma HasTags_true_stays_true_witness :
  ∃ h',
    run (cf := no_methods) plain_Errorf 4 Examples.tagged
      [OpWithError 0 (ptr 1); OpWithError 0 err_nil; OpTags 0 ["late"];
       OpErrorf 0 "boom" []] = Some h' ∧
    Error_HasTags Examples.tagged 0 ["iam"; "authz"] = Some true ∧
    Error_HasTags h' 0 ["iam"; "authz"] = Some true.
Proof.
  destruct (run (cf := no_methods) plain_Errorf 4 Examples.tagged
      [OpWithError 0 (ptr 1); OpWithError 0 err_nil; OpTags 0 ["late"];
       OpErrorf 0 "boom" []]) as [h'|] eqn:Hrun;
    [|vm_compute in Hrun; discriminate].
  exists h'. split; [reflexivity|].
  assert (Error_HasTags Examples.tagged 0 ["iam"; "authz"] = Some true) as Hhas
    by (vm_compute; reflexivity).
  split; [exact Hhas|].
  exact (HasTags_true_stays_true (cf := no_methods) plain_Errorf 4 _ Examples.tagged h' 0
           ["iam"; "authz"] Hrun Hhas).
Defined.

Lemma Get_found_stays_found_witness :
  ∃ h',
    run (cf := no_methods) plain_Errorf 4 Examples.wrapped_pair
      [OpWith 0 "user_id" (any_int 7); OpWithError 0 err_nil;
       OpWith 0 "other" any_nil] = Some h' ∧
    Error_Get Examples.wrapped_pair 0 "user_id" = Some (any_int 123, true) ∧
    ∃ v', Error_Get h' 0 "user_id" = Some (v', true).
Proof.
  destruct (run (cf := no_methods) plain_Errorf 4 Examples.wrapped_pair
      [OpWith 0 "user_id" (any_int 7); OpWithError 0 err_nil;
       OpWith 0 "other" any_nil]) as [h'|] eqn:Hrun;
    [|vm_compute in Hrun; discriminate].
  exists h'. split; [reflexivity|].
  assert (Error_Get Examples.wrapped_pair 0 "user_id" = Some (any_int 123, true))
    as Hget by (vm_compute; reflexivity).
  split; [exact Hget|].
  exact (Get_found_stays_found (cf := no_methods) plain_Errorf 4 _ Examples.wrapped_pair h' 0
           "user_id" (any_int 123) Hrun Hget).
Defined.

(** ** [New] *)

(** X7.  [New] allocates an address no node has: the nodes of the store
    are left as they are, and the new node has the given code, no cause,
    no tags and no data.  Its message is the code, every [Get] misses,
    [GetTags] is empty, and its log projection has the fields [code] and
    [error], followed by [stack] when a snapshot was captured. *)
Theorem New_fresh_empty_node {cf : CodeFormat} (h : heap) T c stk :
  let h' := (New h T c stk).1 in
  let e := (New h T c stk).2 in
  h !! e = None ∧
  (∀ q, q ≠ e → h' !! q = h !! q) ∧
  h' !! e = Some (mkError T c err_nil ∅ ∅ stk) ∧
  Error_Code h' e = Some c ∧
  Error_Unwrap h' e = Some err_nil ∧
  (∀ fuel, 0 < fuel → Error_Error fuel h' e = Some c) ∧
  (∀ key, Error_Get h' e key = Some (any_nil, false)) ∧
  Error_GetTags h' e = Some [] ∧
  (∀ fuel, 0 < fuel →
     ∃ v, Error_LogValue fuel h' e = Some v ∧
          slog.field "code" v = Some (slog.KindString c) ∧
          slog.field "error" v = Some (slog.KindString c) ∧
          slog.keys v = ["code"; "error"]
                        ++ (if stk is Some _ then ["stack"] else [])).
Proof.
  simpl. set (e := fresh (dom h)).
  assert (h !! e = None) as Hfresh.
  { apply not_elem_of_dom. apply is_fresh. }
  assert (<[e:=mkError T c err_nil hashset.New ∅ stk]> h !! e
          = Some (mkError T c err_nil ∅ ∅ stk)) as He
    by by rewrite lookup_insert_eq.
  split_and!; try done.
  - intros q Hq. by rewrite lookup_insert_ne.
  - unfold Error_Code. by rewrite He.
  - unfold Error_Unwrap. by rewrite He.
  - intros [|fuel] ?; [lia|]. simpl. by rewrite He.
  - intros key. unfold Error_Get. by rewrite He.
  - unfold Error_GetTags. rewrite He. simpl. unfold hashset.Values.
    by rewrite elements_empty.
  - intros [|fuel] ?; [lia|].
    rewrite (Error_LogValue_unfold _ _ _ _ He).
    cbn [Error_Error]. rewrite He. simpl.
    rewrite GroupValue_LogValue_attrs by constructor.
    eexists. split; [done|]. unfold LogValue_shown.
    rewrite data_attrs_empty by done. simpl.
    rewrite !bool_decide_eq_true_2 by done. simpl.
    by destruct stk.
Qed.

(** ** [WithError] and [Unwrap] *)

Lemma Error_WithError_eq (h : heap) e n err r :
  h !! e = Some n → call_GetTags h err = Some r →
  Error_WithError h e err
  = Some (<[e := mkError (tparam n) (code n) err
                   (tags n ∪ list_to_set (default [] r)) (data n) (stack n)]> h).
Proof.
  intros Hn Hr. unfold Error_WithError. rewrite Hn. simpl.
  assert (call_GetTags (<[e:=set_wrappedErr err n]> h) err = Some r) as ->.
  { destruct err as [| | | |q]; simpl in *; try done.
    unfold Error_GetTags in *.
    destruct (decide (q = e)) as [->|Hq].
    - rewrite lookup_insert_eq. by rewrite Hn in Hr.
    - by rewrite lookup_insert_ne. }
  simpl. destruct r as [ts|]; simpl.
  - rewrite lookup_insert_eq. simpl. rewrite insert_insert_eq.
    unfold set_tags. simpl. by rewrite hashset_Add_union.
  - unfold set_wrappedErr. do 3 f_equal. set_solver.
Qed.

(** X8.  [Unwrap] returns the error the last [WithError] was given.  A
    second [WithError] replaces the cause and takes nothing back: the
    tags the first cause brought stay on the node beside those of the
    second, and the data is as it was. *)
Theorem Error_WithError_twice (h : heap) e n a b ra rb :
  h !! e = Some n →
  call_GetTags h a = Some ra → call_GetTags h b = Some rb →
  ∃ h1 h2 n2,
    Error_WithError h e a = Some h1 ∧ Error_Unwrap h1 e = Some a ∧
    Error_WithError h1 e b = Some h2 ∧ Error_Unwrap h2 e = Some b ∧
    h2 !! e = Some n2 ∧
    tags n2 = tags n ∪ list_to_set (default [] ra) ∪ list_to_set (default [] rb) ∧
    data n2 = data n ∧
    (∀ q, q ≠ e → h2 !! q = h !! q).
Proof.
  intros Hn Ha Hb.
  rewrite (Error_WithError_eq h e n a ra Hn Ha).
  set (n1 := mkError (tparam n) (code n) a
               (tags n ∪ list_to_set (default [] ra)) (data n) (stack n)).
  assert (∃ rb', call_GetTags (<[e:=n1]> h) b = Some rb' ∧
                 tags n1 ∪ list_to_set (default [] rb')
                 = tags n ∪ list_to_set (default [] ra)
                   ∪ list_to_set (default [] rb)) as (rb' & Hb' & Htags).
  { destruct b as [| | | |q]; simpl in *; simplify_eq; try (by eexists).
    unfold Error_GetTags in *.
    destruct (decide (q = e)) as [->|Hq].
    - rewrite lookup_insert_eq. rewrite Hn in Hb. simplify_eq/=.
      eexists. split; [done|]. simpl. unfold hashset.Values.
      rewrite !list_to_set_elements_L. set_solver.
    - rewrite lookup_insert_ne by done.
      destruct (h !! q); simplify_eq/=. by eexists. }
  exists (<[e:=n1]> h).
  rewrite (Error_WithError_eq (<[e:=n1]> h) e n1 b rb'
             ltac:(by rewrite lookup_insert_eq) Hb').
  rewrite insert_insert_eq. eexists _, _.
  split; [done|]. split; [unfold Error_Unwrap; by rewrite lookup_insert_eq|].
  split; [done|]. split; [unfold Error_Unwrap; by rewrite lookup_insert_eq|].
  split; [by rewrite lookup_insert_eq|].
  split; [exact Htags|]. split; [done|].
  intros q Hq. by rewrite lookup_insert_ne.
Qed.

Lemma Error_WithError_twice_witness :
  Examples.tagged !! 0
    = Some (mkError "domainErr" "not_found" err_nil {[ "iam"; "authz" ]} ∅ None) ∧
  call_GetTags Examples.tagged (ptr 1) = Some (Some ["permission"]) ∧
  call_GetTags Examples.tagged (errorString "plain") = Some None ∧
  ∃ h1 h2 n2,
    Error_WithError Examples.tagged 0 (ptr 1) = Some h1 ∧
    Error_Unwrap h1 0 = Some (ptr 1) ∧
    Error_WithError h1 0 (errorString "plain") = Some h2 ∧
    Error_Unwrap h2 0 = Some (errorString "plain") ∧
    h2 !! 0 = Some n2 ∧
    tags n2 = {[ "iam"; "authz" ]} ∪ list_to_set ["permission"] ∪ ∅ ∧
    data n2 = ∅ ∧
    (∀ q, q ≠ 0 → h2 !! q = Examples.tagged !! q).
Proof.
  assert (call_GetTags Examples.tagged (ptr 1) = Some (Some ["permission"]))
    as Hinner by (vm_compute; reflexivity).
  split; [reflexivity|]. split; [exact Hinner|]. split; [reflexivity|].
  exact (Error_WithError_twice Examples.tagged 0
           (mkError "domainErr" "not_found" err_nil {[ "iam"; "authz" ]} ∅ None)
           (ptr 1) (errorString "plain") (Some ["permission"]) None
           eq_refl Hinner eq_refl).
Defined.

(** ** Identity comparison is an equivalence *)

(** X9.  Between allocated nodes [Is] is reflexive, symmetric and
    transitive. *)
Theorem Error_Is_equivalence (h : heap) e1 e2 e3 n1 n2 n3 :
  h !! e1 = Some n1 → h !! e2 = Some n2 → h !! e3 = Some n3 →
  Error_Is h e1 (ptr e1) = Some true ∧
  Error_Is h e1 (ptr e2) = Error_Is h e2 (ptr e1) ∧
  (Error_Is h e1 (ptr e2) = Some true → Error_Is h e2 (ptr e3) = Some true →
   Error_Is h e1 (ptr e3) = Some true).
Proof.
  intros H1 H2 H3. unfold Error_Is. rewrite H1, H2, H3. simpl.
  split_and!.
  - rewrite decide_True by done. by rewrite bool_decide_eq_true_2.
  - destruct (decide (tparam n2 = tparam n1)), (decide (tparam n1 = tparam n2));
      try congruence.
    by rewrite (bool_decide_ext (code n1 = code n2) (code n2 = code n1)).
  - destruct (decide (tparam n2 = tparam n1)), (decide (tparam n3 = tparam n2)),
      (decide (tparam n3 = tparam n1)); try congruence; try done.
    intros [= Ha%bool_decide_eq_true_1] [= Hb%bool_decide_eq_true_1].
    rewrite bool_decide_eq_true_2; [done|congruence].
Qed.

Lemma Error_Is_equivalence_witness :
  Examples.same_type !! 0
    = Some (mkError "domainErr" "not_found" (ptr 1) ∅ ∅ None) ∧
  Examples.same_type !! 1
    = Some (mkError "domainErr" "bad_request" err_nil ∅ ∅ None) ∧
  Error_Is Examples.same_type 0 (ptr 0) = Some true ∧
  Error_Is Examples.same_type 0 (ptr 1) = Error_Is Examples.same_type 1 (ptr 0).
Proof.
  split; [reflexivity|]. split; [reflexivity|].
  destruct (Error_Is_equivalence Examples.same_type 0 1 0
              (mkError "domainErr" "not_found" (ptr 1) ∅ ∅ None)
              (mkError "domainErr" "bad_request" err_nil ∅ ∅ None)
              (mkError "domainErr" "not_found" (ptr 1) ∅ ∅ None)
              eq_refl eq_refl eq_refl) as (Hrefl & Hsym & _).
  split; [exact Hrefl|exact Hsym].
Defined.

(** ** The [As] method against [errors.As] *)

Lemma first_in_run_all_nodes (h : heap) T l :
  Forall (λ x, ∃ p, x = ptr p) l →
  first_in_run h T l = first_of_type h T l.
Proof.
  induction 1 as [|x l [p ->] _ IH]; simpl; [done|].
  destruct (h !! p) as [n|]; [case_bool_decide|]; done.
Qed.

(** X10.  On a chain made of nodes only, the [As] method of the first
    node finds what [errors.As] finds.  The method itself does not look
    behind a cause of another kind: with a cause made by
    [fmt.Errorf("%w")] around a node [q] of the wanted code type it
    answers [false], and [errors.As], which also follows [Unwrap],
    finds [q]. *)
Theorem Error_As_method_stays_on_nodes (h : heap) e l T fuel :
  chain h (ptr e) l → length l < fuel →
  (Forall (λ x, ∃ p, x = ptr p) l →
     Error_As fuel h e T = errors.As fuel h (ptr e) T) ∧
  (∀ n msg q nq,
     h !! e = Some n → tparam n ≠ T →
     wrappedErr n = wrapError msg (ptr q) →
     h !! q = Some nq → tparam nq = T →
     Error_As fuel h e T = Some None ∧
     errors.As fuel h (ptr e) T = Some (Some q)).
Proof.
  intros Hc Hlen. split.
  - intros Hall.
    rewrite (Error_As_chain h T l e fuel Hc) by lia.
    rewrite (errors_As_chain h T (ptr e) l fuel Hc Hlen).
    by rewrite first_in_run_all_nodes.
  - intros n msg q nq Hn HT Hw Hq HTq. split.
    + destruct fuel as [|fuel]; [lia|]. simpl. rewrite Hn. simpl.
      rewrite decide_False by done. by rewrite Hw.
    + rewrite (errors_As_chain h T (ptr e) l fuel Hc Hlen). f_equal.
      apply chain_ptr_inv in Hc as (n' & l1 & Hn' & -> & Hc1). simplify_eq.
      rewrite Hw in Hc1.
      inversion Hc1 as [|? next l2 _ Hnext Hc2]; simplify_eq/=.
      apply chain_ptr_inv in Hc2 as (? & l3 & ? & -> & _). simplify_eq.
      simpl. rewrite Hn', Hq.
      rewrite bool_decide_eq_false_2 by done.
      by rewrite bool_decide_eq_true_2.
Qed.

Lemma Error_As_method_stays_on_nodes_witness :
  chain Examples.through_wrapper (ptr 0)
    [ptr 0; wrapError "query: zero_rows" (ptr 1); ptr 1] ∧
  length [ptr 0; wrapError "query: zero_rows" (ptr 1); ptr 1] < 4 ∧
  Error_As 4 Examples.through_wrapper 0 "dbErr" = Some None ∧
  errors.As 4 Examples.through_wrapper (ptr 0) "dbErr" = Some (Some 1).
Proof.
  assert (chain Examples.through_wrapper (ptr 0)
            [ptr 0; wrapError "query: zero_rows" (ptr 1); ptr 1]) as Hc
    by chain_tac.
  split; [exact Hc|]. split; [simpl; lia|].
  refine (proj2 (Error_As_method_stays_on_nodes Examples.through_wrapper 0 _
                   "dbErr" 4 Hc _)
            (mkError "domainErr" "not_found"
               (wrapError "query: zero_rows" (ptr 1)) ∅ ∅ None)
            "query: zero_rows" 1
            (mkError "dbErr" "zero_rows" err_nil ∅ ∅ None) _ _ _ _ _);
    first [reflexivity | discriminate | simpl; lia].
Defined.

(** ** What [HasCode] does report *)

(** X11.  On a finite chain [HasCode] returns, and a [true] answer is
    never wrong: some node of the chain has the code type and the code.
    When the chain holds at most one node of the code type, the answer
    is exact. *)
Theorem HasCode_sound_exact_when_type_unique (h : heap) err l T c fuel :
  chain h err l → length l < fuel →
  (∃ b, HasCode fuel h err T c = Some b) ∧
  (HasCode fuel h err T c = Some true → code_in_chain h T c l) ∧
  ((∀ p q, ptr p ∈ l → ptr q ∈ l →
           has_code_type h T (ptr p) = true →
           has_code_type h T (ptr q) = true → p = q) →
   code_in_chain h T c l → HasCode fuel h err T c = Some true).
Proof.
  intros Hc Hlen.
  rewrite (HasCode_first_of_type h err l T c fuel Hc Hlen).
  destruct (first_of_type h T l) as [p|] eqn:Hfirst.
  - apply first_of_type_Some in Hfirst as (l1 & l2 & n & -> & Hn & HT & Hl1).
    rewrite Hn. simpl. split_and!; [by eauto| |].
    + intros [= Hcode%bool_decide_eq_true_1].
      exists p, n. split_and!; try done. set_solver.
    + intros Huniq (q & nq & Hq & Hnq & HTq & Hcq).
      assert (q = p) as ->.
      { apply Huniq; [done|set_solver|..]; simpl.
        - rewrite Hnq. by apply bool_decide_eq_true_2.
        - rewrite Hn. by apply bool_decide_eq_true_2. }
      simplify_eq. by rewrite bool_decide_eq_true_2.
  - split_and!; [by eauto|done|].
    intros _ (q & nq & Hq & Hnq & HTq & _).
    apply first_of_type_None in Hfirst.
    rewrite Forall_forall in Hfirst. specialize (Hfirst _ Hq).
    simpl in Hfirst. rewrite Hnq in Hfirst.
    by rewrite bool_decide_eq_true_2 in Hfirst.
Qed.

Lemma HasCode_sound_exact_when_type_unique_witness :
  chain Examples.wrapped_pair (ptr 0)
    [ptr 0; ptr 1; errorString "db returned no rows"] ∧
  length [ptr 0; ptr 1; errorString "db returned no rows"] < 4 ∧
  HasCode 4 Examples.wrapped_pair (ptr 0) "dbErr" "zero_rows" = Some true ∧
  code_in_chain Examples.wrapped_pair "dbErr" "zero_rows"
    [ptr 0; ptr 1; errorString "db returned no rows"].
Proof.
  assert (chain Examples.wrapped_pair (ptr 0)
            [ptr 0; ptr 1; errorString "db returned no rows"]) as Hc
    by chain_tac.
  assert (HasCode 4 Examples.wrapped_pair (ptr 0) "dbErr" "zero_rows" = Some true)
    as Hhas by (vm_compute; reflexivity).
  split; [exact Hc|]. split; [simpl; lia|]. split; [exact Hhas|].
  exact (proj1 (proj2 (HasCode_sound_exact_when_type_unique Examples.wrapped_pair
                  (ptr 0) _ "dbErr" "zero_rows" 4 Hc ltac:(simpl; lia))) Hhas).
Defined.

(** X12.  [HasCode(err, c)] is [true] exactly when the helper [As], given
    the projection that reads the code of the node, finds a node and
    returns [c]. *)
Theorem HasCode_is_As_with_Code (h : heap) err l T c fuel :
  chain h err l → length l < fuel →
  (HasCode fuel h err T c = Some true ↔
   As fuel h err T (Error_Code h) = Some (Some (Some c), true)).
Proof.
  intros Hc Hlen. unfold HasCode, As.
  rewrite (errors_As_chain h T err l fuel Hc Hlen). simpl.
  destruct (first_of_type h T l) as [p|] eqn:Hfirst; [|done].
  apply first_of_type_Some in Hfirst as (l1 & l2 & n & -> & Hn & HT & Hl1).
  unfold Error_Code. rewrite Hn. simpl. split.
  - by intros [= ->%bool_decide_eq_true_1].
  - intros [= ->]. by rewrite bool_decide_eq_true_2.
Qed.

Lemma HasCode_is_As_with_Code_witness :
  chain Examples.wrapped_pair (ptr 0)
    [ptr 0; ptr 1; errorString "db returned no rows"] ∧
  length [ptr 0; ptr 1; errorString "db returned no rows"] < 4 ∧
  (HasCode 4 Examples.wrapped_pair (ptr 0) "dbErr" "zero_rows" = Some true ↔
   As 4 Examples.wrapped_pair (ptr 0) "dbErr" (Error_Code Examples.wrapped_pair)
     = Some (Some (Some "zero_rows"), true)).
Proof.
  assert (chain Examples.wrapped_pair (ptr 0)
            [ptr 0; ptr 1; errorString "db returned no rows"]) as Hc
    by chain_tac.
  split; [exact Hc|]. split; [simpl; lia|].
  exact (HasCode_is_As_with_Code Examples.wrapped_pair (ptr 0) _ "dbErr"
           "zero_rows" 4 Hc ltac:(simpl; lia)).
Defined.

(** ** Cyclic chains *)

(** X13.  Nothing stops a node from being made its own cause, directly
    or through other nodes.  On such a cycle [Error()] and [LogValue()]
    never return, whatever the fuel, no finite chain starts there, and
    neither the [As] method nor [errors.As] returns when asked for a code
    type that no node of the cycle has. *)
Theorem cyclic_chain_never_returns {cf : CodeFormat} (h : heap) (cyc : addr → Prop) :
  (∀ p, cyc p → ∃ n q, h !! p = Some n ∧ wrappedErr n = ptr q ∧ cyc q) →
  ∀ e, cyc e →
    (∀ fuel, Error_Error fuel h e = None) ∧
    (∀ fuel, Error_LogValue fuel h e = None) ∧
    (∀ l, ¬ chain h (ptr e) l) ∧
    (∀ T, (∀ p n, cyc p → h !! p = Some n → tparam n ≠ T) →
          ∀ fuel, Error_As fuel h e T = None ∧
                  errors.As fuel h (ptr e) T = None).
Proof.
  intros Hcyc.
  assert (∀ fuel e, cyc e → Error_Error fuel h e = None) as Herr.
  { induction fuel as [|fuel IH]; intros e He; [done|].
    destruct (Hcyc e He) as (n & q & Hn & Hw & Hq).
    simpl. rewrite Hn. simpl. rewrite Hw. simpl. by rewrite (IH q Hq). }
  assert (∀ T, (∀ p n, cyc p → h !! p = Some n → tparam n ≠ T) →
          ∀ fuel e, cyc e → Error_As fuel h e T = None) as Has.
  { intros T HT. induction fuel as [|fuel IH]; intros e He; [done|].
    destruct (Hcyc e He) as (n & q & Hn & Hw & Hq).
    simpl. rewrite Hn. simpl. rewrite decide_False by eauto.
    rewrite Hw. by apply IH. }
  intros e He. split_and!.
  - intros fuel. by apply Herr.
  - intros [|fuel]; [done|]. cbn [Error_LogValue].
    destruct (Hcyc e He) as (n & q & Hn & _).
    rewrite Hn. cbn [mbind option_bind]. by rewrite (Herr (S fuel) e He).
  - intros l. revert e He. induction l as [|x l IH]; intros e He Hc;
      apply chain_ptr_inv in Hc as (n & l' & Hn & Heq & Hrest); simplify_eq.
    destruct (Hcyc e He) as (n' & q & Hn' & Hw & Hq). simplify_eq.
    rewrite Hw in Hrest. by apply (IH q).
  - intros T HT fuel. split; [by apply Has|].
    destruct fuel as [|fuel]; [done|]. unfold errors.As. simpl.
    destruct (Hcyc e He) as (n & q & Hn & Hw & Hq).
    rewrite Hn. simpl. rewrite decide_False by eauto.
    by rewrite (Has T HT fuel e He).
Qed.

Lemma cyclic_chain_never_returns_witness :
  Error_WithError (New ∅ "domainErr" "not_found" None).1 0 (ptr 0)
    = Some Examples.self_wrapped ∧
  (∀ p, p = 0 →
     ∃ n q, Examples.self_wrapped !! p = Some n ∧ wrappedErr n = ptr q ∧ q = 0) ∧
  (∀ fuel, Error_Error (cf := no_methods) fuel Examples.self_wrapped 0 = None) ∧
  (∀ fuel, Error_LogValue (cf := no_methods) fuel Examples.self_wrapped 0 = None).
Proof.
  assert (∀ p, p = 0 →
     ∃ n q, Examples.self_wrapped !! p = Some n ∧ wrappedErr n = ptr q ∧ q = 0)
    as Hcyc.
  { intros p ->. eexists _, 0. split; [reflexivity|]. split; reflexivity. }
  split; [vm_compute; reflexivity|]. split; [exact Hcyc|].
  destruct (cyclic_chain_never_returns (cf := no_methods) Examples.self_wrapped (λ p, p = 0)
              Hcyc 0 eq_refl) as (Herr & Hlog & _).
  split; [exact Herr|exact Hlog].
Defined.

(** ** The contents of the log projection *)

Lemma LogValue_wrapped_shape {cf : CodeFormat} fuel (h : heap) n wrapped :
  LogValue_wrapped fuel h n = Some wrapped →
  wrapped = [] ∨ ∃ x, wrapped = [("wrapped", x)].
Proof.
  unfold LogValue_wrapped. intros Hw.
  destruct (wrappedErr n) as [| s | m0 i | m0 ts | q]; simpl in Hw;
    simplify_eq; eauto.
  destruct (Error_LogValue fuel h q); simplify_eq/=. eauto.
Qed.

Ltac sublist_tac :=
  repeat first [ apply sublist_nil | apply sublist_skip | apply sublist_cons ].

(** X14.  The fields of the log projection come in the order [code],
    [error], [data], [tags], [wrapped], [stack], each at most once and no
    other.  When the data map holds a value that [slog] does not turn
    into an empty group, the [data] group holds, each once, the keys of
    the data map whose value is not turned into an empty group, with
    that value as [slog.AnyValue] makes it; the [tags] field lists every
    tag once; the [stack] field is the rendered snapshot. *)
Theorem Error_LogValue_field_contents {cf : CodeFormat} (h : heap) e n l fuel :
  h !! e = Some n → chain h (ptr e) l → length l ≤ fuel →
  ∃ v,
    Error_LogValue fuel h e = Some v ∧
    slog.keys v `sublist_of` ["code"; "error"; "data"; "tags"; "wrapped"; "stack"] ∧
    ((∃ k a, data n !! k = Some a ∧
             slog.isEmptyGroup (slog.AnyValue a) = false) →
       ∃ attrs, slog.field "data" v = Some (slog.KindGroup attrs) ∧
                NoDup attrs.*1 ∧
                ∀ k x, (k, x) ∈ attrs ↔
                       ∃ a, data n !! k = Some a ∧ x = slog.AnyValue a ∧
                            slog.isEmptyGroup x = false) ∧
    (tags n ≠ ∅ →
       ∃ ts, slog.field "tags" v = Some (slog.KindAny (any_strings ts)) ∧
             NoDup ts ∧ ∀ x, x ∈ ts ↔ x ∈ tags n) ∧
    (∀ s, stack n = Some s →
       slog.field "stack" v = Some (slog.KindString (Stack.String s))).
Proof.
  intros Hn Hc Hlen.
  destruct (Error_LogValue_chain h l e fuel Hc Hlen)
    as (n' & msg & wr & Hn' & _ & Hwr & _ & Hv).
  simplify_eq. exists (slog.KindGroup (LogValue_shown n msg wr)).
  split; [done|].
  apply LogValue_wrapped_shape in Hwr.
  pose proof (proj1 (data_attrs_not_nil n)) as Hnn.
  pose proof (data_attrs_NoDup n) as Hnd.
  pose proof (data_attrs_elem n) as Helem.
  assert (NoDup (hashset.Values (tags n)) ∧
          ∀ x, x ∈ hashset.Values (tags n) ↔ x ∈ tags n) as Htags.
  { split; [apply NoDup_elements|]. intros x. apply elem_of_elements. }
  unfold LogValue_shown, slog.field, slog.keys.
  destruct (data_attrs n) as [|a0 das];
  (destruct (decide (tags n = ∅)) as [Ht|Ht];
    [rewrite (bool_decide_eq_true_2 _ Ht)|rewrite (bool_decide_eq_false_2 _ Ht)]);
  destruct (stack n) as [s|];
  destruct Hwr as [->|[x ->]]; cbn;
  (split_and!;
   [ sublist_tac
   | intros Hex;
     first [ by destruct (Hnn Hex)
           | eexists; split; [reflexivity|split; [exact Hnd|exact Helem]] ]
   | intros Hne; first [ by destruct (Hne Ht) | by eexists ]
   | intros s' Hs; by simplify_eq ]).
Qed.

Lemma Error_LogValue_field_contents_witness :
  Examples.wrapped_pair !! 1
    = Some (mkError "dbErr" "zero_rows" (errorString "db returned no rows") ∅
              {[ "req_id" := any_int 10 ]} None) ∧
  chain Examples.wrapped_pair (ptr 1)
    [ptr 1; errorString "db returned no rows"] ∧
  length [ptr 1; errorString "db returned no rows"] ≤ 2 ∧
  ∃ v,
    Error_LogValue (cf := no_methods) 2 Examples.wrapped_pair 1 = Some v ∧
    slog.keys v `sublist_of` ["code"; "error"; "data"; "tags"; "wrapped"; "stack"] ∧
    ∃ attrs, slog.field "data" v = Some (slog.KindGroup attrs) ∧
             ∀ k x, (k, x) ∈ attrs ↔
                    ∃ a, ({[ "req_id" := any_int 10 ]} : gmap string any) !! k
                         = Some a ∧ x = slog.AnyValue a ∧
                         slog.isEmptyGroup x = false.
Proof.
  assert (chain Examples.wrapped_pair (ptr 1)
            [ptr 1; errorString "db returned no rows"]) as Hc by chain_tac.
  split; [reflexivity|]. split; [exact Hc|]. split; [simpl; lia|].
  destruct (Error_LogValue_field_contents (cf := no_methods)
              Examples.wrapped_pair 1
              (mkError "dbErr" "zero_rows" (errorString "db returned no rows") ∅
                 {[ "req_id" := any_int 10 ]} None)
              _ 2 eq_refl Hc ltac:(simpl; lia))
    as (v & Hv & Hkeys & Hdata & _).
  exists v. split; [exact Hv|]. split; [exact Hkeys|].
  destruct Hdata as (attrs & Hfield & _ & Hin).
  { exists "req_id", (any_int 10). split; reflexivity. }
  exists attrs. split; [exact Hfield|exact Hin].
Defined.

(** ** Searching in strings *)

Lemma bytes_of_bytes (l : list Ascii.ascii) : strings.bytes (strings.of_bytes l) = l.
Proof. apply String.list_ascii_of_string_of_list_ascii. Qed.

Lemma of_bytes_bytes (s : string) : strings.of_bytes (strings.bytes s) = s.
Proof. apply String.string_of_list_ascii_of_string. Qed.

Lemma index_of_Some (sub l : list Ascii.ascii) :
  ∀ i, strings.index_of sub l = Some i →
    sub `prefix_of` drop i l ∧ i ≤ length l ∧
    ∀ j, j < i → ¬ sub `prefix_of` drop j l.
Proof.
  induction l as [|c l IH]; intros i; simpl.
  - case_decide; [|done]. intros [= <-]. split_and!; [done|lia|lia].
  - case_decide as Hp.
    + intros [= <-]. split_and!; [done|lia|lia].
    + destruct (strings.index_of sub l) as [i'|]; simpl; [|done].
      intros [= <-]. destruct (IH i' eq_refl) as (Hocc & Hle & Hmin).
      split_and!; [done|lia|]. intros [|j] Hj; [done|].
      simpl. apply Hmin. lia.
Qed.

Lemma index_of_None (sub l : list Ascii.ascii) :
  strings.index_of sub l = None → ∀ j, ¬ sub `prefix_of` drop j l.
Proof.
  induction l as [|c l IH]; simpl.
  - case_decide; [done|]. intros _ j. by rewrite drop_nil.
  - case_decide as Hp; [done|].
    destruct (strings.index_of sub l) as [i'|]; simpl; [done|].
    intros _ [|j]; [done|]. simpl. by apply IH.
Qed.

Lemma last_index_of_None (sub l : list Ascii.ascii) :
  strings.last_index_of sub l = None → ∀ j, ¬ sub `prefix_of` drop j l.
Proof.
  induction l as [|c l IH]; simpl.
  - case_decide; [done|]. intros _ j. by rewrite drop_nil.
  - destruct (strings.last_index_of sub l) as [i'|]; [done|].
    case_decide as Hp; [done|].
    intros _ [|j]; [done|]. simpl. by apply IH.
Qed.

Lemma last_index_of_Some (sub l : list Ascii.ascii) :
  ∀ i, strings.last_index_of sub l = Some i →
    sub `prefix_of` drop i l ∧ i ≤ length l ∧
    ∀ j, i < j → j ≤ length l → ¬ sub `prefix_of` drop j l.
Proof.
  induction l as [|c l IH]; intros i; simpl.
  - case_decide; [|done]. intros [= <-]. split_and!; [done|lia|lia].
  - destruct (strings.last_index_of sub l) as [i'|] eqn:Hlast.
    + intros [= <-]. destruct (IH i' eq_refl) as (Hocc & Hle & Hmax).
      split_and!; [done|lia|]. intros [|j] ??; [lia|].
      simpl. apply Hmax; lia.
    + case_decide as Hp; [|done]. intros [= <-].
      split_and!; [done|lia|]. intros [|j] ??; [lia|].
      simpl. by apply last_index_of_None.
Qed.

Lemma index_of_is_Some (sub l : list Ascii.ascii) j :
  sub `prefix_of` drop j l → is_Some (strings.index_of sub l).
Proof.
  intros Hocc. destruct (strings.index_of sub l) eqn:Hi; [by eauto|].
  by destruct (index_of_None sub l Hi j).
Qed.

Lemma last_index_of_is_Some (sub l : list Ascii.ascii) j :
  sub `prefix_of` drop j l → is_Some (strings.last_index_of sub l).
Proof.
  intros Hocc. destruct (strings.last_index_of sub l) eqn:Hi; [by eauto|].
  by destruct (last_index_of_None sub l Hi j).
Qed.

(** [substr] occurs in [s] exactly when [s] is some bytes, then [substr],
    then some bytes. *)
Lemma Contains_true (s substr : string) :
  strings.Contains s substr = true ↔
  ∃ pre post, strings.bytes s = pre ++ strings.bytes substr ++ post.
Proof.
  unfold strings.Contains, strings.Index. split.
  - destruct (strings.index_of _ _) as [i|] eqn:Hi.
    + intros _. apply index_of_Some in Hi as ([post Hpost] & _ & _).
      exists (take i (strings.bytes s)), post.
      by rewrite <- Hpost, take_drop.
    + intros Hd. apply bool_decide_eq_true_1 in Hd. lia.
  - intros (pre & post & Heq).
    destruct (index_of_is_Some (strings.bytes substr) (strings.bytes s)
                (length pre)) as [i ->].
    + rewrite Heq, drop_app_length. by apply prefix_app_r.
    + apply bool_decide_eq_true_2. lia.
Qed.

Lemma Contains_suffix (s r substr : string) :
  strings.bytes r `suffix_of` strings.bytes s →
  strings.Contains r substr = true → strings.Contains s substr = true.
Proof.
  intros [k Hk]. rewrite !Contains_true. intros (pre & post & Heq).
  exists (k ++ pre), post. by rewrite Hk, Heq, <- app_assoc.
Qed.

Lemma slice_from_Some (s : string) (i : Z) r :
  strings.slice_from s i = Some r ↔
  (0 ≤ i ≤ Z.of_nat (length (strings.bytes s)))%Z ∧
  r = strings.of_bytes (drop (Z.to_nat i) (strings.bytes s)).
Proof.
  unfold strings.slice_from. case_bool_decide; naive_solver.
Qed.

Lemma Contains_false (s substr : string) :
  strings.Contains s substr = false ↔
  strings.last_index_of (strings.bytes substr) (strings.bytes s) = None.
Proof.
  split.
  - intros Hc. destruct (strings.last_index_of _ _) as [i|] eqn:Hi; [|done].
    apply last_index_of_Some in Hi as (Hocc & _ & _).
    apply index_of_is_Some in Hocc as [j Hj].
    unfold strings.Contains, strings.Index in Hc. rewrite Hj in Hc.
    apply bool_decide_eq_false_1 in Hc. lia.
  - intros Hi. unfold strings.Contains, strings.Index.
    destruct (strings.index_of _ _) as [j|] eqn:Hj.
    + apply index_of_Some in Hj as (Hocc & _ & _).
      by destruct (last_index_of_None _ _ Hi j).
    + apply bool_decide_eq_false_2. lia.
Qed.

Lemma Contains_false_index (s substr : string) :
  strings.Contains s substr = false ↔
  strings.index_of (strings.bytes substr) (strings.bytes s) = None.
Proof.
  rewrite Contains_false. split.
  - intros Hi. destruct (strings.index_of _ _) as [j|] eqn:Hj; [|done].
    apply index_of_Some in Hj as (Hocc & _ & _).
    by destruct (last_index_of_None _ _ Hi j).
  - intros Hj. destruct (strings.last_index_of _ _) as [i|] eqn:Hi; [|done].
    apply last_index_of_Some in Hi as (Hocc & _ & _).
    by destruct (index_of_None _ _ Hj i).
Qed.

(** Cutting [s] behind the last occurrence of a non-empty [substr] stays
    in range and leaves a rest in which [substr] does not occur. *)
Lemma cut_after_last (s substr : string) i :
  strings.bytes substr ≠ [] →
  strings.last_index_of (strings.bytes substr) (strings.bytes s) = Some i →
  ∃ r, strings.slice_from s (Z.of_nat i + Z.of_nat (length (strings.bytes substr)))
       = Some r ∧
       strings.bytes s
       = take i (strings.bytes s) ++ strings.bytes substr ++ strings.bytes r ∧
       strings.Contains r substr = false.
Proof.
  intros Hne Hi. apply last_index_of_Some in Hi as ([post Hpost] & Hle & Hmax).
  set (k := length (strings.bytes substr)).
  assert (0 < k) as Hk.
  { unfold k. destruct (strings.bytes substr); [done|simpl; lia]. }
  assert (i + k ≤ length (strings.bytes s)) as Hin.
  { apply (f_equal length) in Hpost.
    rewrite length_drop, length_app in Hpost. fold k in Hpost. lia. }
  assert (drop (i + k) (strings.bytes s) = post) as Hdrop.
  { rewrite <- drop_drop, Hpost. by apply drop_app_length. }
  exists (strings.of_bytes post). split_and!.
  - apply slice_from_Some. split; [lia|].
    by rewrite <- Nat2Z.inj_add, Nat2Z.id, Hdrop.
  - rewrite bytes_of_bytes, <- Hpost. by rewrite take_drop.
  - apply Contains_false. rewrite bytes_of_bytes.
    destruct (strings.last_index_of _ post) as [j|] eqn:Hj; [|done].
    apply last_index_of_Some in Hj as (Hocc & Hjle & _).
    rewrite <- Hdrop, drop_drop in Hocc.
    destruct (Hmax (i + k + j)); [lia| |done].
    apply (f_equal length) in Hdrop. rewrite length_drop in Hdrop. lia.
Qed.

(** The same behind the first occurrence: the cut stays in range. *)
Lemma cut_after_first (s substr : string) i :
  strings.index_of (strings.bytes substr) (strings.bytes s) = Some i →
  ∃ r, strings.slice_from s (Z.of_nat i + Z.of_nat (length (strings.bytes substr)))
       = Some r ∧
       strings.bytes s
       = take i (strings.bytes s) ++ strings.bytes substr ++ strings.bytes r.
Proof.
  intros Hi. apply index_of_Some in Hi as ([post Hpost] & Hle & _).
  set (k := length (strings.bytes substr)).
  assert (i + k ≤ length (strings.bytes s)) as Hin.
  { apply (f_equal length) in Hpost.
    rewrite length_drop, length_app in Hpost. fold k in Hpost. lia. }
  assert (drop (i + k) (strings.bytes s) = post) as Hdrop.
  { rewrite <- drop_drop, Hpost. by apply drop_app_length. }
  exists (strings.of_bytes post). split.
  - apply slice_from_Some. split; [lia|].
    by rewrite <- Nat2Z.inj_add, Nat2Z.id, Hdrop.
  - rewrite bytes_of_bytes, <- Hpost. by rewrite take_drop.
Qed.

(** ** stack.go: trimming paths and names *)

Lemma bytes_app (s1 s2 : string) :
  strings.bytes (s1 +:+ s2) = strings.bytes s1 ++ strings.bytes s2.
Proof. induction s1 as [|c s1 IH]; simpl; [done|]. by rewrite <- IH. Qed.

Lemma bytes_inj (s1 s2 : string) : strings.bytes s1 = strings.bytes s2 → s1 = s2.
Proof.
  intros Heq. by rewrite <- (of_bytes_bytes s1), Heq, of_bytes_bytes.
Qed.

Lemma bytes_split (s : string) pre (r : string) :
  strings.bytes s = pre ++ strings.bytes r → s = strings.of_bytes pre +:+ r.
Proof.
  intros Heq. apply bytes_inj. by rewrite bytes_app, bytes_of_bytes.
Qed.

Lemma trimGoPath_spec (path : string) :
  ∃ r, Stack.trimGoPath path = Some r ∧
       (∃ pre, path = pre +:+ r) ∧
       strings.Contains r "/go/src/" = false ∧
       (strings.Contains path "/go/src/" = false → r = path) ∧
       (strings.Contains path "/go/src/" = true →
          ∃ pre, path = pre +:+ "/go/src/" +:+ r).
Proof.
  unfold Stack.trimGoPath, strings.LastIndex.
  destruct (strings.last_index_of (strings.bytes "/go/src/") (strings.bytes path))
    as [i|] eqn:Hi.
  - rewrite bool_decide_eq_true_2 by lia.
    destruct (cut_after_last path "/go/src/" i ltac:(done) Hi)
      as (r & Hr & Heq & Hno).
    exists r. split_and!; [exact Hr| |done| |].
    + exists (strings.of_bytes (take i (strings.bytes path)) +:+ "/go/src/").
      apply bytes_inj. by rewrite !bytes_app, bytes_of_bytes, <- app_assoc.
    + intros Hc. apply Contains_false in Hc. congruence.
    + intros _. exists (strings.of_bytes (take i (strings.bytes path))).
      apply bytes_inj. by rewrite !bytes_app, bytes_of_bytes.
  - rewrite bool_decide_eq_false_2 by lia.
    apply Contains_false in Hi.
    exists path. split_and!; [done|by exists ""|done|done|congruence].
Qed.

Lemma index_of_char_None (c : Ascii.ascii) l :
  c ∉ l → strings.index_of [c] l = None.
Proof.
  induction l as [|a l IH]; intros Hc; simpl; [done|].
  - rewrite decide_False.
    + rewrite IH; [done|set_solver].
    + intros ->%prefix_cons_inv_1. set_solver.
Qed.

Lemma index_of_char (c : Ascii.ascii) pre post :
  c ∉ pre → strings.index_of [c] (pre ++ c :: post) = Some (length pre).
Proof.
  induction pre as [|a pre IH]; intros Hc; simpl.
  - rewrite decide_True; [done|]. apply prefix_cons, prefix_nil.
  - rewrite decide_False.
    + rewrite IH; [done|set_solver].
    + intros ->%prefix_cons_inv_1. set_solver.
Qed.

Lemma last_index_of_char (c : Ascii.ascii) pre post :
  c ∉ post → strings.last_index_of [c] (pre ++ c :: post) = Some (length pre).
Proof.
  intros Hc. induction pre as [|a pre IH]; simpl.
  - assert (strings.last_index_of [c] post = None) as ->.
    { destruct (strings.last_index_of [c] post) as [i|] eqn:Hi; [|done].
      apply last_index_of_Some in Hi as (Hocc & _ & _).
      by destruct (index_of_None _ _ (index_of_char_None c post Hc) i). }
    rewrite decide_True; [done|]. apply prefix_cons, prefix_nil.
  - by rewrite IH.
Qed.

Lemma char_not_in_Contains (c : Ascii.ascii) (s : string) :
  strings.Contains s (String c EmptyString) = false ↔ c ∉ strings.bytes s.
Proof.
  rewrite Contains_false_index. change (strings.bytes (String c "")) with [c].
  split.
  - intros Hi Hin. apply list_elem_of_split in Hin as (l1 & l2 & Heq).
    pose proof (index_of_None _ _ Hi (length l1)) as Hno.
    rewrite Heq, drop_app_length in Hno. apply Hno, prefix_cons, prefix_nil.
  - apply index_of_char_None.
Qed.

Lemma no_slash (s : string) :
  strings.Contains s "/" = false ↔ Ascii.ascii_of_nat 47 ∉ strings.bytes s.
Proof. exact (char_not_in_Contains (Ascii.ascii_of_nat 47) s). Qed.

Lemma no_dot (s : string) :
  strings.Contains s "." = false ↔ Ascii.ascii_of_nat 46 ∉ strings.bytes s.
Proof. exact (char_not_in_Contains (Ascii.ascii_of_nat 46) s). Qed.

(** The cut behind the last slash. *)
Lemma cut_last_slash (name : string) :
  ∃ r,
    (let i := strings.LastIndex name "/" in
     if bool_decide (i ≠ -1)%Z then strings.slice_from name (i + 1)
     else Some name) = Some r ∧
    (∃ pre, name = pre +:+ r) ∧
    strings.Contains r "/" = false ∧
    (strings.Contains name "/" = false → r = name) ∧
    (∀ dir rest, name = dir +:+ "/" +:+ rest →
                 strings.Contains rest "/" = false → r = rest).
Proof.
  simpl. unfold strings.LastIndex.
  destruct (strings.last_index_of (strings.bytes "/") (strings.bytes name))
    as [i|] eqn:Hi.
  - rewrite bool_decide_eq_true_2 by lia.
    destruct (cut_after_last name "/" i ltac:(done) Hi) as (r & Hr & Heq & Hno).
    exists r. split_and!; [exact Hr| |done| |].
    + exists (strings.of_bytes (take i (strings.bytes name)) +:+ "/").
      apply bytes_inj. by rewrite !bytes_app, bytes_of_bytes, <- app_assoc.
    + intros Hc. apply Contains_false in Hc. congruence.
    + intros dir rest -> Hrest. apply no_slash in Hrest.
      rewrite !bytes_app in Hi, Heq.
      change (strings.bytes "/") with [Ascii.ascii_of_nat 47] in *.
      simpl in Hi, Heq. rewrite last_index_of_char in Hi by done.
      simplify_eq. rewrite take_app_length in Heq.
      apply bytes_inj. by simplify_list_eq.
  - rewrite bool_decide_eq_false_2 by lia.
    apply Contains_false in Hi.
    exists name. split_and!; [done|by exists ""|done|done|].
    intros dir rest -> _. apply no_slash in Hi.
    rewrite !bytes_app in Hi.
    change (strings.bytes "/") with [Ascii.ascii_of_nat 47] in Hi. set_solver.
Qed.

(** The cut behind the first dot. *)
Lemma cut_first_dot (name : string) :
  ∃ r,
    (let i := strings.Index name "." in
     if bool_decide (i ≠ -1)%Z then strings.slice_from name (i + 1)
     else Some name) = Some r ∧
    (∃ pre, name = pre +:+ r) ∧
    (strings.Contains name "." = false → r = name) ∧
    (∀ pkg f, name = pkg +:+ "." +:+ f →
              strings.Contains pkg "." = false → r = f).
Proof.
  simpl. unfold strings.Index.
  destruct (strings.index_of (strings.bytes ".") (strings.bytes name))
    as [i|] eqn:Hi.
  - rewrite bool_decide_eq_true_2 by lia.
    destruct (cut_after_first name "." i Hi) as (r & Hr & Heq).
    exists r. split_and!; [exact Hr| | |].
    + exists (strings.of_bytes (take i (strings.bytes name)) +:+ ".").
      apply bytes_inj. by rewrite !bytes_app, bytes_of_bytes, <- app_assoc.
    + intros Hc. apply Contains_false_index in Hc. congruence.
    + intros pkg f -> Hpkg. apply no_dot in Hpkg.
      rewrite !bytes_app in Hi, Heq.
      change (strings.bytes ".") with [Ascii.ascii_of_nat 46] in *.
      simpl in Hi, Heq. rewrite index_of_char in Hi by done.
      simplify_eq. rewrite take_app_length in Heq.
      apply bytes_inj. by simplify_list_eq.
  - rewrite bool_decide_eq_false_2 by lia.
    apply Contains_false_index in Hi.
    exists name. split_and!; [done|by exists ""|done|].
    intros pkg f -> _. apply no_dot in Hi.
    rewrite !bytes_app in Hi.
    change (strings.bytes ".") with [Ascii.ascii_of_nat 46] in Hi. set_solver.
Qed.

Lemma Contains_append_r (pre r substr : string) :
  strings.Contains r substr = true → strings.Contains (pre +:+ r) substr = true.
Proof.
  apply Contains_suffix. rewrite bytes_app. by apply suffix_app_r.
Qed.

Lemma Contains_append_r_false (pre r substr : string) :
  strings.Contains (pre +:+ r) substr = false → strings.Contains r substr = false.
Proof.
  intros Hno. destruct (strings.Contains r substr) eqn:Hc; [|done].
  by rewrite (Contains_append_r pre r substr Hc) in Hno.
Qed.

Lemma append_assoc (a b c : string) : (a +:+ b) +:+ c = a +:+ b +:+ c.
Proof. apply bytes_inj. by rewrite !bytes_app, app_assoc. Qed.

Lemma trimFuncName_spec (name : string) :
  ∃ r, Stack.trimFuncName name = Some r ∧
       (∃ pre, name = pre +:+ r) ∧
       strings.Contains r "/" = false ∧
       (strings.Contains name "/" = false →
        strings.Contains name "." = false → r = name) ∧
       (∀ pkg f,
          name = pkg +:+ "." +:+ f →
          strings.Contains pkg "/" = false → strings.Contains pkg "." = false →
          strings.Contains f "/" = false → r = f) ∧
       (∀ dir pkg f,
          name = dir +:+ "/" +:+ pkg +:+ "." +:+ f →
          strings.Contains pkg "/" = false → strings.Contains pkg "." = false →
          strings.Contains f "/" = false → r = f).
Proof.
  assert (Ascii.ascii_of_nat 47 ≠ Ascii.ascii_of_nat 46) as Hchars by done.
  assert (∀ pkg f,
    strings.Contains pkg "/" = false → strings.Contains f "/" = false →
    strings.Contains (pkg +:+ "." +:+ f) "/" = false) as Hjoin.
  { intros pkg f Hp%no_slash Hf%no_slash. apply no_slash.
    rewrite !bytes_app. change (strings.bytes ".") with [Ascii.ascii_of_nat 46].
    set_solver. }
  unfold Stack.trimFuncName.
  destruct (cut_last_slash name) as (r1 & H1 & [pre1 Hpre1] & Hno1 & Hid1 & Hshape1).
  destruct (cut_first_dot r1) as (r & H2 & [pre2 Hpre2] & Hid2 & Hshape2).
  cbv zeta in H1, H2 |- *. rewrite H1. cbn [mbind option_bind]. rewrite H2.
  exists r. split_and!; [done| | | | |].
  - exists (pre1 +:+ pre2). by rewrite Hpre1, Hpre2 at 1; rewrite append_assoc.
  - apply (Contains_append_r_false pre2). by rewrite <- Hpre2.
  - intros Hn1 Hn2. rewrite (Hid1 Hn1) in *. by apply Hid2.
  - intros pkg f Hname Hp1 Hp2 Hf. apply (Hshape2 pkg f); [|done].
    rewrite Hid1; [done|]. rewrite Hname. by apply Hjoin.
  - intros dir pkg f Hname Hp1 Hp2 Hf. apply (Hshape2 pkg f); [|done].
    apply (Hshape1 dir); [done|]. by apply Hjoin.
Qed.

(** ** stack.go: [captureStack] *)


Lemma length_removelast {A} (l : list A) : length (removelast l) = pred (length l).
Proof.
  induction l as [|x [|y l] IH]; simpl in *; [done|done|]. by rewrite IH.
Qed.

Lemma captureStack_loop_spec (iter : list Stack.Frame) :
  ∀ acc, ∃ fs,
    Stack.captureStack_loop iter acc = Some (acc ++ fs) ∧
    Forall2 recorded fs (filter (λ fr, kept fr = true) (removelast iter)).
Proof.
  induction iter as [|frame iter IH]; intros acc.
  - exists []. split; [by rewrite app_nil_r|constructor].
  - destruct iter as [|frame2 iter].
    + exists []. split; [by rewrite app_nil_r|constructor].
    + change (removelast (frame :: frame2 :: iter))
        with (frame :: removelast (frame2 :: iter)).
      change (Stack.captureStack_loop (frame :: frame2 :: iter) acc) with
        (if strings.Contains (Stack.File frame) "runtime/"
            || strings.Contains (Stack.File frame) "_test.go"
         then Stack.captureStack_loop (frame2 :: iter) acc
         else
           file' ← Stack.trimGoPath (Stack.File frame);
           function' ← Stack.trimFuncName (Stack.Function frame);
           Stack.captureStack_loop (frame2 :: iter)
             (acc ++ [Stack.Build_stackFrame (Stack.PC frame) file' function'
                        (Stack.Line frame)])).
      destruct (strings.Contains (Stack.File frame) "runtime/"
                || strings.Contains (Stack.File frame) "_test.go") eqn:Hskip.
      * destruct (IH acc) as (fs & Hfs & Hrec). exists fs. split; [done|].
        rewrite filter_cons_False; [done|].
        unfold kept. rewrite Hskip. done.
      * destruct (trimGoPath_spec (Stack.File frame)) as (file' & Hfile & _).
        destruct (trimFuncName_spec (Stack.Function frame)) as (fn' & Hfn & _).
        rewrite Hfile, Hfn. cbn [mbind option_bind].
        destruct (IH (acc ++ [Stack.Build_stackFrame (Stack.PC frame) file' fn'
                                (Stack.Line frame)])) as (fs & Hfs & Hrec).
        exists (Stack.Build_stackFrame (Stack.PC frame) file' fn'
                  (Stack.Line frame) :: fs).
        split; [by rewrite Hfs, <- app_assoc|].
        rewrite filter_cons_True by (unfold kept; by rewrite Hskip).
        constructor; [|done]. by unfold recorded.
Qed.

Lemma captureStack_loop_last (iter : list Stack.Frame) last last' :
  ∀ acc, Stack.captureStack_loop (iter ++ [last]) acc
         = Stack.captureStack_loop (iter ++ [last']) acc.
Proof.
  induction iter as [|frame iter IH]; intros acc; [done|].
  assert (∀ x acc0,
    Stack.captureStack_loop ((frame :: iter) ++ [x]) acc0
    = if strings.Contains (Stack.File frame) "runtime/"
         || strings.Contains (Stack.File frame) "_test.go"
      then Stack.captureStack_loop (iter ++ [x]) acc0
      else
        file' ← Stack.trimGoPath (Stack.File frame);
        function' ← Stack.trimFuncName (Stack.Function frame);
        Stack.captureStack_loop (iter ++ [x])
          (acc0 ++ [Stack.Build_stackFrame (Stack.PC frame) file' function'
                      (Stack.Line frame)])) as Hstep.
  { intros x acc0. by destruct iter. }
  rewrite !Hstep.
  destruct (_ || _); [apply IH|].
  destruct (Stack.trimGoPath _); [|done]. cbn [mbind option_bind].
  destruct (Stack.trimFuncName _); [|done]. cbn [mbind option_bind].
  apply IH.
Qed.

(** X15.  [trimGoPath] always returns, and returns the end of the path:
    the whole path when ["/go/src/"] does not occur in it, and otherwise
    what follows an occurrence of ["/go/src/"].  The marker does not
    occur in the result, so trimming twice changes nothing more. *)
Theorem trimGoPath_cuts_behind_marker (path : string) :
  ∃ r, Stack.trimGoPath path = Some r ∧
       (∃ pre, path = pre +:+ r) ∧
       strings.Contains r "/go/src/" = false ∧
       Stack.trimGoPath r = Some r ∧
       (strings.Contains path "/go/src/" = false → r = path) ∧
       (strings.Contains path "/go/src/" = true →
          ∃ pre, path = pre +:+ "/go/src/" +:+ r).
Proof.
  destruct (trimGoPath_spec path) as (r & Hr & Hsuf & Hno & Hid & Hcut).
  exists r. split_and!; try done.
  destruct (trimGoPath_spec r) as (r' & Hr' & _ & _ & Hid' & _).
  by rewrite Hr', (Hid' Hno).
Qed.

(** X16.  [trimFuncName] always returns the end of the name, and no
    slash occurs in it.  A name without slash and dot is returned as it
    is; a name [dir/pkg.f], or [pkg.f], where [pkg] has neither slash
    nor dot and [f] has no slash, is cut down to [f]. *)
Theorem trimFuncName_keeps_short_name (name : string) :
  ∃ r, Stack.trimFuncName name = Some r ∧
       (∃ pre, name = pre +:+ r) ∧
       strings.Contains r "/" = false ∧
       (strings.Contains name "/" = false →
        strings.Contains name "." = false → r = name) ∧
       (∀ pkg f,
          name = pkg +:+ "." +:+ f →
          strings.Contains pkg "/" = false → strings.Contains pkg "." = false →
          strings.Contains f "/" = false → r = f) ∧
       (∀ dir pkg f,
          name = dir +:+ "/" +:+ pkg +:+ "." +:+ f →
          strings.Contains pkg "/" = false → strings.Contains pkg "." = false →
          strings.Contains f "/" = false → r = f).
Proof. exact (trimFuncName_spec name). Qed.

(** X17.  [captureStack] returns the nil snapshot when the runtime
    reports no caller, and a snapshot otherwise.  The snapshot records,
    in order, the frames the iterator yields whose file has neither
    ["runtime/"] nor ["_test.go"] in it, each with its path and name
    trimmed, except the frame the iterator yields last: that one is
    never recorded, whatever it is.  No recorded file has ["runtime/"],
    ["_test.go"] or ["/go/src/"] in it, and no recorded name a slash. *)
Theorem captureStack_records_kept_frames (n : nat) (iter : list Stack.Frame) :
  (n = 0 → Stack.captureStack n iter = Some None) ∧
  (n ≠ 0 →
     ∃ s, Stack.captureStack n iter = Some (Some s) ∧
          Forall2 recorded (Stack.frames s)
            (filter (λ fr, kept fr = true) (removelast iter)) ∧
          length (Stack.frames s) ≤ pred (length iter) ∧
          Forall (λ f,
                    strings.Contains (Stack.file f) "runtime/" = false ∧
                    strings.Contains (Stack.file f) "_test.go" = false ∧
                    strings.Contains (Stack.file f) "/go/src/" = false ∧
                    strings.Contains (Stack.function f) "/" = false)
                 (Stack.frames s)) ∧
  (∀ iter0 last last',
     Stack.captureStack n (iter0 ++ [last])
     = Stack.captureStack n (iter0 ++ [last'])).
Proof.
  unfold Stack.captureStack. split_and!.
  - intros ->. done.
  - intros Hn. rewrite bool_decide_eq_false_2 by done.
    destruct (captureStack_loop_spec iter []) as (fs & -> & Hrec).
    simpl. exists (Stack.Build_stack fs). split; [done|]. simpl.
    split_and!; [done| |].
    + rewrite (Forall2_length _ _ _ Hrec).
      etrans; [apply length_filter|]. by rewrite length_removelast.
    + apply Forall_forall. intros f [i Hi]%list_elem_of_lookup.
      destruct (Forall2_lookup_l _ _ _ _ _ Hrec Hi)
        as (fr & Hfr%list_elem_of_lookup_2 & _ & _ & Hfile & Hfn).
      apply list_elem_of_filter in Hfr as [Hkept _].
      unfold kept in Hkept. apply negb_true_iff, orb_false_iff in Hkept
        as [Hrun Htest].
      destruct (trimGoPath_spec (Stack.File fr))
        as (r & Hr & [pre Hpre] & Hno & _).
      destruct (trimFuncName_spec (Stack.Function fr))
        as (r' & Hr' & _ & Hno' & _).
      simplify_eq. rewrite Hpre in Hrun, Htest.
      split_and!; [|  |done|done].
      * by apply (Contains_append_r_false pre).
      * by apply (Contains_append_r_false pre).
  - intros iter0 last last'. case_bool_decide; [done|].
    by rewrite (captureStack_loop_last iter0 last last').
Qed.

(** ** stack.go: rendering *)

Lemma String_foldl_acc (fs : list Stack.stackFrame) :
  ∀ sb,
    foldl (λ sb frame,
             sb +:+ Stack.newline +:+ "    at " +:+ Stack.stackFrame_String frame)
          sb fs
    = sb +:+ Stack.String (Stack.Build_stack fs).
Proof.
  unfold Stack.String. simpl.
  induction fs as [|f fs IH]; intros sb; simpl.
  - apply bytes_inj. by rewrite bytes_app, app_nil_r.
  - rewrite IH. rewrite (IH (_ +:+ _)). simpl.
    by rewrite !append_assoc.
Qed.

(** X18.  A snapshot renders frame by frame: nothing for no frame, and
    for each frame, in order, a line feed, four spaces, ["at "] and the
    frame.  So the rendering of two lists of frames one after the other
    is the two renderings one after the other.  A frame without function
    name renders as [file:line], and with one as [file:line name()]. *)
Theorem stack_String_frame_by_frame (f : Stack.stackFrame)
    (fs fs' : list Stack.stackFrame) :
  Stack.String (Stack.Build_stack []) = "" ∧
  Stack.String (Stack.Build_stack (f :: fs))
  = Stack.newline +:+ "    at " +:+ Stack.stackFrame_String f
    +:+ Stack.String (Stack.Build_stack fs) ∧
  Stack.String (Stack.Build_stack (fs ++ fs'))
  = Stack.String (Stack.Build_stack fs) +:+ Stack.String (Stack.Build_stack fs') ∧
  (Stack.function f = "" →
   Stack.stackFrame_String f = Stack.file f +:+ ":" +:+ pretty (Stack.line f)) ∧
  (Stack.function f ≠ "" →
   Stack.stackFrame_String f
   = Stack.file f +:+ ":" +:+ pretty (Stack.line f) +:+ " "
     +:+ Stack.function f +:+ "()").
Proof.
  split_and!.
  - done.
  - unfold Stack.String at 1. simpl. rewrite String_foldl_acc. simpl.
    by rewrite !append_assoc.
  - unfold Stack.String at 1. simpl. rewrite foldl_app.
    rewrite String_foldl_acc. fold (Stack.String (Stack.Build_stack fs)).
    done.
  - intros Hf. unfold Stack.stackFrame_String.
    by rewrite bool_decide_eq_false_2 by (by intros ?).
  - intros Hf. unfold Stack.stackFrame_String.
    by rewrite bool_decide_eq_true_2.
Qed.

(** The trimming and the capture on the frames of a test run. *)
Example captureStack_test_run :
  Stack.trimGoPath "/home/u/go/src/github.com/a/b/f.go" = Some "github.com/a/b/f.go" ∧
  Stack.trimGoPath "/a/go/src/go/src/x.go" = Some "x.go" ∧
  Stack.trimFuncName "github.com/DeluxeOwl/zerrors.New" = Some "New" ∧
  Stack.trimFuncName "github.com/a/b.(*T).M" = Some "(*T).M" ∧
  Stack.captureStack 4
    [Stack.Build_Frame 1 "github.com/a/b.F" "/home/u/go/src/github.com/a/b/f.go" 10;
     Stack.Build_Frame 2 "github.com/a/b.TestF" "/home/u/go/src/github.com/a/b/f_test.go" 20;
     Stack.Build_Frame 3 "testing.tRunner" "/usr/local/go/src/testing/testing.go" 30;
     Stack.Build_Frame 4 "main.main" "/x/main.go" 40]
  = Some (Some (Stack.Build_stack
       [Stack.Build_stackFrame 1 "github.com/a/b/f.go" "F" 10;
        Stack.Build_stackFrame 3 "testing/testing.go" "tRunner" 30])).
Proof. by vm_compute. Qed.

(** ** [Errorf] *)

(** X19.  [Errorf] on an allocated node returns and puts the error made
    by [fmt.Errorf] in place of the cause.  When that error is not a
    node and has the message [m] (as any error of [fmt.Errorf]),
    [Error()] is then the code as [fmt] writes it under [%s], a colon, a
    space and [m], whatever the cause was before.  Unlike [WithError],
    [Errorf] leaves the tags as they are, and also the data and the
    other nodes. *)
Theorem Error_Errorf_then_Error {cf : CodeFormat}
    (fmt_Errorf : string → list any → error) (h : heap) e n format a m :
  h !! e = Some n →
  (∀ self, call_Error self (fmt_Errorf format a) = Some m) →
  ∃ h' n',
    Error_Errorf fmt_Errorf h e format a = Some h' ∧
    h' !! e = Some n' ∧
    Error_Unwrap h' e = Some (fmt_Errorf format a) ∧
    (∀ fuel, 0 < fuel →
       Error_Error fuel h' e
       = Some (fmt_s (tparam n) (code n) +:+ ": " +:+ m)) ∧
    tags n' = tags n ∧ data n' = data n ∧
    (∀ q, q ≠ e → h' !! q = h !! q).
Proof.
  intros Hn Hm. unfold Error_Errorf. rewrite Hn. simpl.
  eexists _, _. split; [done|]. split; [by rewrite lookup_insert_eq|].
  split_and!; try done.
  - unfold Error_Unwrap. by rewrite lookup_insert_eq.
  - intros [|fuel] ?; [lia|]. simpl. rewrite lookup_insert_eq. simpl.
    rewrite Hm. pose proof (Hm (λ _, None)) as Hforeign.
    by destruct (fmt_Errorf format a).
  - intros q Hq. by rewrite lookup_insert_ne.
Qed.

Lemma Error_Errorf_then_Error_witness :
  Examples.bracketed !! 1 = Some (mkError "bracketErr" "A" err_nil ∅ ∅ None) ∧
  (∀ self, call_Error self (plain_Errorf "db returned no rows" [])
           = Some "db returned no rows") ∧
  ∃ h' n',
    Error_Errorf plain_Errorf Examples.bracketed 1 "db returned no rows" []
      = Some h' ∧
    h' !! 1 = Some n' ∧
    Error_Unwrap h' 1 = Some (errorString "db returned no rows") ∧
    (∀ fuel, 0 < fuel →
       Error_Error (cf := bracket_String) fuel h' 1
       = Some "<A>: db returned no rows") ∧
    tags n' = ∅ ∧ data n' = ∅ ∧
    (∀ q, q ≠ 1 → h' !! q = Examples.bracketed !! q).
Proof.
  split; [reflexivity|]. split; [intros self; reflexivity|].
  exact (Error_Errorf_then_Error (cf := bracket_String) plain_Errorf
           Examples.bracketed 1
           (mkError "bracketErr" "A" err_nil ∅ ∅ None)
           "db returned no rows" [] "db returned no rows"
           eq_refl (λ self, eq_refl)).
Defined.
